(** * A shallow embedding of the R entry point of glmnet ([glmnet], [elnet],
    [fishnet] in R/glmnet.R and the unnamed elnet.R) and of the interface it
    exchanges with the compiled path solver. *)

From Stdlib Require Import QArith List String Bool ZArith Arith Lia Psatz.
From Stdlib Require Import Sorted Permutation Qround Qabs.
From Stdlib Require Import Reals Rpower Qreals.
Import ListNotations.
Close Scope R_scope.
Close Scope Q_scope.
Open Scope nat_scope.

(** ** R values *)

(** An R double: a rational value, the two infinities, [NaN] and [NA_real_].
    Arithmetic is exact on [Num]; the IEEE rules are kept for the
    special values. *)
Inductive dbl : Type :=
| Num (q : Q)
| PosInf
| NegInf
| NaN
| NA.

(** An R logical scalar. *)
Inductive lgl : Type := LTrue | LFalse | LNA.

Definition lgl_of_bool (b : bool) : lgl := if b then LTrue else LFalse.

Definition lgl_not (l : lgl) : lgl :=
  match l with LTrue => LFalse | LFalse => LTrue | LNA => LNA end.

(** [is.na]: true on [NA] and [NaN]. *)
Definition is_na (d : dbl) : bool :=
  match d with NA | NaN => true | _ => false end.

Definition Qltb (p q : Q) : bool := negb (Qle_bool q p).

(** [a < b] *)
Definition dbl_lt (a b : dbl) : lgl :=
  match a, b with
  | (NA | NaN), _ => LNA
  | _, (NA | NaN) => LNA
  | Num p, Num q => lgl_of_bool (Qltb p q)
  | NegInf, NegInf => LFalse
  | NegInf, _ => LTrue
  | _, NegInf => LFalse
  | PosInf, _ => LFalse
  | _, PosInf => LTrue
  end.

Definition dbl_gt (a b : dbl) : lgl := dbl_lt b a.

(** [a == b] *)
Definition dbl_eq (a b : dbl) : lgl :=
  match a, b with
  | (NA | NaN), _ => LNA
  | _, (NA | NaN) => LNA
  | Num p, Num q => lgl_of_bool (Qeq_bool p q)
  | PosInf, PosInf | NegInf, NegInf => LTrue
  | _, _ => LFalse
  end.

Definition dbl_ge (a b : dbl) : lgl := lgl_not (dbl_lt a b).

Definition dbl_neg (a : dbl) : dbl :=
  match a with
  | Num q => Num (- q)%Q
  | PosInf => NegInf
  | NegInf => PosInf
  | d => d
  end.

Definition dbl_add (a b : dbl) : dbl :=
  match a, b with
  | NA, _ | _, NA => NA
  | NaN, _ | _, NaN => NaN
  | Num p, Num q => Num (p + q)%Q
  | PosInf, NegInf | NegInf, PosInf => NaN
  | PosInf, _ | _, PosInf => PosInf
  | NegInf, _ | _, NegInf => NegInf
  end.

Definition dbl_sub (a b : dbl) : dbl := dbl_add a (dbl_neg b).

(** Sign of a non-NA value: -1, 0 or 1. *)
Definition dbl_sign (a : dbl) : Z :=
  match a with
  | Num q => if Qltb q 0%Q then (-1)%Z else if Qeq_bool q 0%Q then 0%Z else 1%Z
  | PosInf => 1%Z
  | NegInf => (-1)%Z
  | _ => 0%Z
  end.

Definition inf_of_sign (s : Z) : dbl :=
  match s with Z.pos _ => PosInf | Z.neg _ => NegInf | Z0 => NaN end.

Definition dbl_mul (a b : dbl) : dbl :=
  match a, b with
  | NA, _ | _, NA => NA
  | NaN, _ | _, NaN => NaN
  | Num p, Num q => Num (p * q)%Q
  | _, _ => inf_of_sign (dbl_sign a * dbl_sign b)
  end.

Definition dbl_div (a b : dbl) : dbl :=
  match a, b with
  | NA, _ | _, NA => NA
  | NaN, _ | _, NaN => NaN
  | Num p, Num q => if Qeq_bool q 0%Q then inf_of_sign (dbl_sign a) else Num (p / q)%Q
  | Num _, _ => Num 0%Q
  | _, (PosInf | NegInf) => NaN
  | _, Num q => inf_of_sign (dbl_sign a * dbl_sign b)
  end.

(** [sum(v)] *)
Definition r_sum (v : list dbl) : dbl := fold_left dbl_add v (Num 0%Q).

(** [any(v)] and [all(v)] over logical vectors. *)
Definition r_any (v : list lgl) : lgl :=
  if existsb (fun l => match l with LTrue => true | _ => false end) v then LTrue
  else if existsb (fun l => match l with LNA => true | _ => false end) v then LNA
  else LFalse.

Definition r_all (v : list lgl) : lgl :=
  if existsb (fun l => match l with LFalse => true | _ => false end) v then LFalse
  else if existsb (fun l => match l with LNA => true | _ => false end) v then LNA
  else LTrue.

(** Element-wise binary operation with R's recycling of the shorter
    operand (a zero-length operand gives a zero-length result). *)
Definition recycle {A B C : Type} (f : A -> B -> C) (a : list A) (b : list B)
  (da : A) (db : B) : list C :=
  match a, b with
  | [], _ | _, [] => []
  | _, _ =>
      let n := Nat.max (List.length a) (List.length b) in
      map (fun i => f (nth (i mod List.length a) a da) (nth (i mod List.length b) b db))
          (seq 0 n)
  end.

(** R's [sort] on doubles: [NA] and [NaN] are removed, the rest is put in
    increasing order (stable). *)
Definition dbl_leb (a b : dbl) : bool :=
  match dbl_lt b a with LTrue => false | _ => true end.

Fixpoint insert_sorted (a : dbl) (l : list dbl) : list dbl :=
  match l with
  | [] => [a]
  | b :: l' => if dbl_leb a b then a :: l else b :: insert_sorted a l'
  end.

Fixpoint isort (l : list dbl) : list dbl :=
  match l with
  | [] => []
  | a :: l' => insert_sorted a (isort l')
  end.

Definition r_sort (l : list dbl) : list dbl :=
  isort (filter (fun d => negb (is_na d)) l).

(** [seq(n)] for a non-negative count [n]: [1:n], which is [c(1, 0)] when
    [n = 0]. *)
Definition r_seq (n : nat) : list nat :=
  match n with
  | O => [1; 0]
  | _ => seq 1 n
  end.

(** [v[idx]] for positive and zero indices: zero indices are dropped, an
    index past the end gives [NA]. *)
Definition r_index (v : list dbl) (idx : list nat) : list dbl :=
  map (fun i => nth (i - 1) v NA) (filter (fun i => negb (i =? 0)) idx).

(** [match.arg(arg, choices)] for a character scalar: an exact match, else
    the unique choice that [arg] is a non-empty prefix of; anything else is
    an error. *)
Definition match_arg (arg : string) (choices : list string) : option string :=
  if existsb (String.eqb arg) choices then Some arg
  else if String.eqb arg EmptyString then None
  else match filter (fun c => String.prefix arg c) choices with
       | [c] => Some c
       | _ => None
       end.

(** A missing argument whose default is the vector of choices gives the
    first choice. *)
Definition match_arg_opt (arg : option string) (choices : list string)
  : option string :=
  match arg with
  | None => hd_error choices
  | Some a => match_arg a choices
  end.

(** ** Data passed around by the R code *)

(** A design matrix: its dimensions, its entries in column-major order, and
    whether it is a [sparseMatrix]. *)
Record xmat : Type := mkxmat {
  x_nrow : nat;
  x_ncol : nat;
  x_vals : list dbl;
  x_sparse : bool
}.

(** A response: a plain vector or a matrix (column-major). *)
Inductive yval : Type :=
| YVec (v : list dbl)
| YMat (r c : nat) (v : list dbl).

Definition yvals (y : yval) : list dbl :=
  match y with YVec v => v | YMat _ _ v => v end.

(** [dim(y)] *)
Definition ydim (y : yval) : option (list nat) :=
  match y with YVec _ => None | YMat r c _ => Some [r; c] end.

(** A numeric matrix such as [penalty.factor]. *)
Record nmat : Type := mknmat {
  m_nrow : nat;
  m_ncol : nat;
  m_vals : list dbl
}.

(** The [family] argument: missing (the vector of family names), a character
    string, or a family object (a non-character value). *)
Inductive fam_arg : Type :=
| FamDefault
| FamName (s : string)
| FamObject.

Definition family_names : list string :=
  ["gaussian"; "binomial"; "poisson"; "multinomial"; "cox"; "mgaussian"]%string.

(** The arguments of the family fit ([elnet], [fishnet], [lognet], [coxnet],
    [mrelnet]) called at the end of [glmnet]. *)
Record fam_call : Type := mkfam_call {
  fc_family : string;
  fc_x : xmat;
  fc_is_sparse : bool;
  fc_y : yval;
  fc_weights : list dbl;
  fc_offset : option (list dbl);
  fc_type_gaussian : string;
  fc_alpha : dbl;
  fc_nobs : nat;
  fc_nvars : nat;
  fc_jd : list Z;
  fc_vp : list dbl;
  fc_mp : nmat;
  fc_cl : list dbl * list dbl;
  fc_ne : Z;
  fc_nx : Z;
  fc_nlam : Z;
  fc_flmin : dbl;
  fc_ulam : list dbl;
  fc_thresh : dbl;
  fc_isd : Z;
  fc_intr : Z;
  fc_jsd : Z;
  fc_maxit : Z;
  fc_kopt : Z
}.

(** Which compiled solver is called: [elnet_exp]/[spelnet_exp] with its
    [ka], or [fishnet_exp]/[spfishnet_exp]. *)
Inductive core_kind : Type :=
| KElnet (ka : Z)
| KFishnet.

(** The arguments of a call into the compiled solver. *)
Record core_args : Type := mkcore_args {
  ca_kind : core_kind;
  ca_sparse : bool;
  ca_parm : dbl;
  ca_x : xmat;
  ca_y : yval;
  ca_offset : option yval;
  ca_weights : list dbl;
  ca_jd : list Z;
  ca_vp : list dbl;
  ca_mp : nmat;
  ca_cl : list dbl * list dbl;
  ca_ne : Z;
  ca_nx : Z;
  ca_nlam : Z;
  ca_flmin : dbl;
  ca_ulam : list dbl;
  ca_thresh : dbl;
  ca_isd : Z;
  ca_intr : Z;
  ca_maxit : Z
}.

(** What the compiled solver writes back: [lmu], [a0], [ca] (one column per
    lambda), [ia], [nin], [rsq] (the [dev] output for Poisson), [nulldev]
    (Poisson only), [alm], [nlp] and [jerr]. *)
Record core_out : Type := mkcore_out {
  co_lmu : nat;
  co_a0 : list dbl;
  co_ca : list (list dbl);
  co_ia : list Z;
  co_nin : list Z;
  co_rsq : list dbl;
  co_nulldev : dbl;
  co_alm : list dbl;
  co_nlp : Z;
  co_jerr : Z
}.

(** The list returned by a family fit, as far as the claims look at it. *)
Record fit_list : Type := mkfit_list {
  fl_a0 : list dbl;
  fl_beta : list (list (Z * dbl));
  fl_df : list Z;
  fl_lambda : list dbl;
  fl_dev_ratio : list dbl;
  fl_nulldev : dbl;
  fl_npasses : Z;
  fl_jerr : Z;
  fl_offset : bool;
  fl_nobs : option nat
}.

Definition set_fl_lambda (l : list dbl) (f : fit_list) : fit_list :=
  mkfit_list (fl_a0 f) (fl_beta f) (fl_df f) l (fl_dev_ratio f) (fl_nulldev f)
    (fl_npasses f) (fl_jerr f) (fl_offset f) (fl_nobs f).

Definition set_fl_nobs (n : nat) (f : fit_list) : fit_list :=
  mkfit_list (fl_a0 f) (fl_beta f) (fl_df f) (fl_lambda f) (fl_dev_ratio f)
    (fl_nulldev f) (fl_npasses f) (fl_jerr f) (fl_offset f) (Some n).

(** ** The process-wide settings *)

(** The record [glmnet.control] manages (its named entries). *)
Record config : Type := mkconfig {
  fdev : Q;
  devmax : Q;
  eps : Q;
  big : dbl;
  mnlam : Z;
  pmin : Q;
  exmx : Q;
  mxit : Z;
  epsnr : Q;
  itrace : Z
}.

(** Modelled from the spec: [glmnet.control] (not in src/).  Called with one
    named argument it replaces that entry of the process-wide record and
    leaves the others as they are. *)
Definition control_set_fdev (v : Q) (c : config) : config :=
  mkconfig v (devmax c) (eps c) (big c) (mnlam c) (pmin c) (exmx c) (mxit c)
    (epsnr c) (itrace c).

Definition control_set_itrace (v : Z) (c : config) : config :=
  mkconfig (fdev c) (devmax c) (eps c) (big c) (mnlam c) (pmin c) (exmx c)
    (mxit c) (epsnr c) v.

(** ** The evaluation monad of an R function body

    The state holds the process-wide settings, the frame's [on.exit]
    expression (one slot: [on.exit] without [add = TRUE] replaces it), the
    warnings raised so far, and a log of the calls made into the family fits
    and into the compiled solver, with the settings in force at each call. *)

Inductive event : Type :=
| EvFamily (fc : fam_call) (c : config)
| EvCore (ca : core_args) (c : config).

Record st : Type := mkst {
  st_cfg : config;
  st_onexit : option (config -> config);
  st_warns : list string;
  st_log : list event
}.

Inductive res (A : Type) : Type :=
| ROk (a : A) (s : st)
| RErr (msg : string) (s : st).
Arguments ROk {A} a s.
Arguments RErr {A} msg s.

Definition M (A : Type) : Type := st -> res A.

Definition ret {A : Type} (a : A) : M A := fun s => ROk a s.

Definition bind {A B : Type} (m : M A) (k : A -> M B) : M B :=
  fun s => match m s with
           | ROk a s' => k a s'
           | RErr e s' => RErr e s'
           end.

Notation "x <- m ;; k" := (bind m (fun x => k))
  (at level 61, m at next level, right associativity).

(** [stop(msg)] *)
Definition stop {A : Type} (msg : string) : M A := fun s => RErr msg s.

(** [warning(msg)] *)
Definition warning (msg : string) : M unit :=
  fun s => ROk tt (mkst (st_cfg s) (st_onexit s) (st_warns s ++ [msg]) (st_log s)).

Definition get_cfg : M config := fun s => ROk (st_cfg s) s.

Definition modify_cfg (f : config -> config) : M unit :=
  fun s => ROk tt (mkst (f (st_cfg s)) (st_onexit s) (st_warns s) (st_log s)).

(** [on.exit(expr)]: replaces the frame's exit expression. *)
Definition on_exit (h : config -> config) : M unit :=
  fun s => ROk tt (mkst (st_cfg s) (Some h) (st_warns s) (st_log s)).

Definition emit (e : event) : M unit :=
  fun s => ROk tt (mkst (st_cfg s) (st_onexit s) (st_warns s) (st_log s ++ [e])).

(** [if (cond)]: an [NA] condition is an error. *)
Definition r_if (c : lgl) : M bool :=
  match c with
  | LTrue => ret true
  | LFalse => ret false
  | LNA => stop "missing value where TRUE/FALSE needed"
  end.

(** Leaving the frame, normally or by an error, runs the exit expression. *)
Definition exit_frame (s : st) : st :=
  match st_onexit s with
  | Some h => mkst (h (st_cfg s)) None (st_warns s) (st_log s)
  | None => s
  end.

Definition final_state {A : Type} (r : res A) : st :=
  match r with ROk _ s => s | RErr _ s => s end.

(** ** Arguments of [glmnet] *)

(** The arguments of [glmnet]; [None] stands for a missing argument, which
    takes the default written in the signature.  [exclude] is an index
    vector (not a function), [relax] and [trace.it] are passed as given. *)
Record glmnet_input : Type := mkinput {
  in_x : xmat;
  in_y : yval;
  in_family : fam_arg;
  in_weights : option (list dbl);
  in_offset : option (list dbl);
  in_alpha : dbl;
  in_nlambda : Z;
  in_lambda_min_ratio : option dbl;
  in_lambda : option (list dbl);
  in_standardize : bool;
  in_intercept : option bool;
  in_thresh : dbl;
  in_dfmax : option Z;
  in_pmax : option Z;
  in_exclude : option (list Z);
  in_penalty_factor : option nmat;
  in_lower_limits : option (list dbl);
  in_upper_limits : option (list dbl);
  in_maxit : Z;
  in_type_gaussian : option string;
  in_type_logistic : option string;
  in_standardize_response : bool;
  in_type_multinomial : option string;
  in_relax : bool;
  in_trace_it : Z
}.

(** The code the R files call but do not contain: the compiled solvers
    ([elnet_exp], [spelnet_exp], [fishnet_exp], [spfishnet_exp]), which read
    the settings at entry; the other family fits ([lognet], [coxnet],
    [mrelnet]); [glmnet.path], [cox.path], [use.cox.path]; [fix.lam]; and
    [relax.glmnet].  Every statement below holds for all of them. *)
Record externals : Type := mkext {
  ext_core : core_args -> config -> core_out;
  ext_family : string -> fam_call -> config -> string + fit_list;
  ext_glmnet_path : glmnet_input -> config -> string + fit_list;
  ext_cox_path : glmnet_input -> config -> string + fit_list;
  ext_use_cox_path : xmat -> yval -> bool;
  ext_fix_lam : list dbl -> list dbl;
  ext_relax : fit_list -> config -> string + fit_list
}.

Definition lift_ext (r : string + fit_list) : M fit_list :=
  match r with inl e => stop e | inr f => ret f end.

(** *** The response as a factor: lines 359-370 *)

(** [as.character] of a double keeps 15 significant digits ([%.15g]):
    [round_half_even] rounds a value to an integer, ties to even. *)
Definition round_half_even (x : Q) : Z :=
  let f := Qfloor x in
  let r := (x - inject_Z f)%Q in
  if Qltb r (1 # 2) then f
  else if Qltb (1 # 2) r then (f + 1)%Z
  else if Z.even f then f else (f + 1)%Z.

(** [floor(log10 z)] of a positive integer [z] (its number of digits
    less one). *)
Fixpoint log10_fuel (fuel : nat) (z : Z) : Z :=
  match fuel with
  | O => 0
  | S n => if (z <? 10)%Z then 0 else (1 + log10_fuel n (z / 10))%Z
  end.

Definition log10_Z (z : Z) : Z := log10_fuel (Z.to_nat (Z.log2 z + 1)) z.

(** The decimal exponent [floor(log10 a)] of a positive [a]. *)
Definition dec_exp (a : Q) : Z :=
  let e := (log10_Z (Qnum a) - log10_Z (Zpos (Qden a)))%Z in
  if Qle_bool (Qpower (10 # 1) e) a then e else (e - 1)%Z.

(** The value that [as.character] prints: [q] rounded to 15 significant
    digits. *)
Definition sig15 (q : Q) : Q :=
  if Qeq_bool q 0 then 0%Q
  else
    let a := Qabs q in
    let sc := Qpower (10 # 1) (14 - dec_exp a) in
    let m := inject_Z (round_half_even (a * sc)) in
    if Qltb q 0 then (- (m / sc))%Q else (m / sc)%Q.

(** Identity of two values as factor levels: [factor] matches the values
    by [as.character], so two numbers are one level when they agree to 15
    significant digits. *)
Definition dbl_same (a b : dbl) : bool :=
  match a, b with
  | Num p, Num q => Qeq_bool (sig15 p) (sig15 q)
  | PosInf, PosInf | NegInf, NegInf | NaN, NaN => true
  | _, _ => false
  end.

Fixpoint dedup_sorted (l : list dbl) : list dbl :=
  match l with
  | a :: ((b :: _) as l') => if dbl_same a b then dedup_sorted l' else a :: dedup_sorted l'
  | _ => l
  end.

(** [levels(as.factor(y))]: the distinct values in increasing order, [NaN]
    last, [NA] not a level. *)
Definition factor_levels (v : list dbl) : list dbl :=
  dedup_sorted (r_sort v)
  ++ (if existsb (fun d => match d with NaN => true | _ => false end) v
      then [NaN] else []).

(** [table(y)] *)
Definition level_counts (lv v : list dbl) : list nat :=
  map (fun l => List.length (filter (dbl_same l) v)) lv.

(** [as.numeric(y)] of the factor: the level position (1-based), 0 for
    [NA]. *)
Fixpoint level_pos (lv : list dbl) (d : dbl) : nat :=
  match lv with
  | [] => 0
  | l :: lv' => if dbl_same l d then 1 else
                  match level_pos lv' d with 0 => 0 | k => S k end
  end.

(** [diag(nc)[as.numeric(y),]], column-major; a row for a missing level is
    all [NA]; with one column R drops the result to a vector. *)
Definition indicator (nc : nat) (lv v : list dbl) : yval :=
  let cell j d := match level_pos lv d with
                  | 0 => NA
                  | k => if k =? j then Num 1%Q else Num 0%Q
                  end in
  let vals := flat_map (fun j => map (cell j) v) (seq 1 nc) in
  if nc =? 1 then YVec vals else YMat (List.length v) nc vals.

Definition list_min (l : list nat) : option nat :=
  match l with
  | [] => None
  | a :: l' => Some (fold_left Nat.min l' a)
  end.

(** Lines 359-370: [nc=dim(y)]; a response without dimensions is turned
    into an indicator matrix of its classes.  (With no class at all,
    [min(ntab)] is [Inf] and the indexing of [diag(0)] fails.) *)
Definition shape_response (y : yval) : M (yval * list nat) :=
  match ydim y with
  | Some d => ret (y, d)
  | None =>
      let v := yvals y in
      let lv := factor_levels v in
      match list_min (level_counts lv v) with
      | None => stop "subscript out of bounds"
      | Some minclass =>
          if minclass <=? 1 then
            stop "one multinomial or binomial class has 1 or 0 observations; not allowed"
          else
            _ <- (if minclass <? 8 then
                    warning "one multinomial or binomial class has fewer than 8  observations; dangerous ground"
                  else ret tt) ;;
            let nc := List.length lv in
            ret (indicator nc lv v, [nc])
      end
  end.

(** *** Lines 354-381 *)

Record stage1 : Type := mkstage1 {
  s1_nobs : nat;
  s1_nvars : nat;
  s1_y : yval;
  s1_nc : list nat;
  s1_weights : list dbl;
  s1_pf : nmat
}.

Definition all_eq_recycled (a b : list nat) : bool :=
  forallb (fun x => x) (recycle Nat.eqb a b 0 0).

Definition glmnet_stage1 (inp : glmnet_input) : M stage1 :=
  let x := in_x inp in
  if x_ncol x <=? 1 then stop "x should be a matrix with 2 or more columns" else
  let nobs := x_nrow x in
  let nvars := x_ncol x in
  yn <- shape_response (in_y inp) ;;
  let (y, nc) := yn in
  na <- r_if (r_any (map (fun d => lgl_of_bool (is_na d)) (x_vals x))) ;;
  if na then stop "x has missing values; consider using makeX() to impute them" else
  weights <- (match in_weights inp with
              | None => ret (repeat (Num 1%Q) nobs)
              | Some w => if negb (List.length w =? nobs)
                          then stop "number of elements in weights not equal to the number of rows of x"
                          else ret w
              end) ;;
  let pf := match in_penalty_factor inp with
            | Some pf => pf
            | None => let k := hd 0 nc in mknmat nvars k (repeat (Num 1%Q) (nvars * k))
            end in
  if negb (all_eq_recycled [m_nrow pf; m_ncol pf] (nvars :: nc))
  then stop "penalty.factor must be of dimension (nvars x nc)"
  else ret (mkstage1 nobs nvars y nc weights pf).

(** *** Lines 403-513 *)

(** [drop(y)] *)
Definition drop_y (y : yval) : yval :=
  match y with
  | YMat r c v => if (r =? 1) || (c =? 1) then YVec v else y
  | _ => y
  end.

(** [ifelse(is.null(dimy), length(y), dimy[1])] *)
Definition nrowy (y : yval) : nat :=
  match y with YVec v => List.length v | YMat r _ _ => r end.

Fixpoint insert_Z (a : Z) (l : list Z) : list Z :=
  match l with
  | [] => [a]
  | b :: l' => if (a <=? b)%Z then a :: l else b :: insert_Z a l'
  end.

Fixpoint dedup_Z (l : list Z) : list Z :=
  match l with
  | a :: ((b :: _) as l') => if (a =? b)%Z then dedup_Z l' else a :: dedup_Z l'
  | _ => l
  end.

(** [sort(unique(v))] *)
Definition sort_unique_Z (l : list Z) : list Z :=
  dedup_Z (fold_right insert_Z [] l).

(** [seq(nvars)[penalty.factor==Inf]]: the positions of infinite entries of
    the matrix read as a vector; positions past [nvars] give [NA], which
    the following [sort] removes, so only the first column counts. *)
Definition inf_positions (nvars : nat) (pf : nmat) : list Z :=
  map Z.of_nat
    (filter (fun i => (i <=? nvars) &&
               match dbl_eq (nth (i - 1) (m_vals pf) NA) PosInf with
               | LTrue => true | _ => false end)
            (seq 1 (List.length (m_vals pf)))).

(** [match(exclude, seq(nvars), 0)] *)
Definition match_index (nvars : nat) (e : Z) : Z :=
  if (1 <=? e)%Z && (e <=? Z.of_nat nvars)%Z then e else 0%Z.

(** [penalty.factor[jd]=1] *)
Definition set_ones (jd : list Z) (pf : nmat) : nmat :=
  mknmat (m_nrow pf) (m_ncol pf)
    (map (fun iv => if existsb (Z.eqb (Z.of_nat (fst iv))) jd then Num 1%Q else snd iv)
         (combine (seq 1 (List.length (m_vals pf))) (m_vals pf))).

(** [lim[lim==target] = repl] *)
Definition replace_where (target repl : dbl) (lim : list dbl) : list dbl :=
  map (fun v => match dbl_eq v target with LTrue => repl | _ => v end) lim.

(** Lines 447-454 for one of the limits. *)
Definition fit_length (what : string) (nvars : nat) (lim : list dbl) : M (list dbl) :=
  if List.length lim <? nvars then
    if List.length lim =? 1 then ret (repeat (hd NA lim) nvars)
    else stop ("Require length 1 or nvars " ++ what)%string
  else ret (r_index lim (r_seq nvars)).

(** The default of [lambda.min.ratio]. *)
Definition default_lambda_min_ratio (nobs nvars : nat) : dbl :=
  if nobs <? nvars then Num (1 # 100) else Num (1 # 10000).

(** The default of [type.gaussian]. *)
Definition default_type_gaussian (nvars : nat) : string :=
  if nvars <? 500 then "covariance" else "naive".

Definition bool_Z (b : bool) : Z := if b then 1%Z else 0%Z.

(** Lines 403-411. *)
Definition clamp_alpha (a : dbl) : M dbl :=
  a_hi <- r_if (dbl_gt a (Num 1%Q)) ;;
  alpha1 <- (if a_hi then _ <- warning "alpha >1; set to 1" ;; ret (Num 1%Q)
             else ret a) ;;
  a_lo <- r_if (dbl_lt alpha1 (Num 0%Q)) ;;
  if a_lo then _ <- warning "alpha<0; set to 0" ;; ret (Num 0%Q)
  else ret alpha1.

(** Lines 443-455, with [big] read from [internal.parms]. *)
Definition box_limits (nvars : nat) (big : dbl) (lower0 upper0 : list dbl)
  : M (list dbl * list dbl) :=
  lo_pos <- r_if (r_any (map (fun d => dbl_gt d (Num 0%Q)) lower0)) ;;
  if lo_pos then stop "Lower limits should be non-positive" else
  up_neg <- r_if (r_any (map (fun d => dbl_lt d (Num 0%Q)) upper0)) ;;
  if up_neg then stop "Upper limits should be non-negative" else
  let lower1 := replace_where NegInf (dbl_neg big) lower0 in
  let upper1 := replace_where PosInf big upper0 in
  lower <- fit_length "lower.limits" nvars lower1 ;;
  upper <- fit_length "upper.limits" nvars upper1 ;;
  ret (lower, upper).

(** Lines 456-464. *)
Definition zero_bound_fdev (cl : list dbl * list dbl) : M unit :=
  anyzero <- r_if (r_any (map (fun d => dbl_eq d (Num 0%Q)) (fst cl ++ snd cl))) ;;
  if anyzero then
    c <- get_cfg ;;
    let fdev0 := fdev c in
    if negb (Qeq_bool fdev0 0%Q) then
      _ <- modify_cfg (control_set_fdev 0%Q) ;;
      on_exit (control_set_fdev fdev0)
    else ret tt
  else ret tt.

(** Lines 473-483: [flmin], [ulam] and [nlam]. *)
Definition lambda_args (nobs nvars : nat) (lambda_min_ratio : option dbl)
  (lambda : option (list dbl)) (nlam0 : Z) : M (dbl * list dbl * Z) :=
  match lambda with
  | None =>
      let lmr := match lambda_min_ratio with
                 | Some r => r | None => default_lambda_min_ratio nobs nvars end in
      big_ratio <- r_if (dbl_ge lmr (Num 1%Q)) ;;
      if big_ratio then stop "lambda.min.ratio should be less than 1"
      else ret (lmr, [Num 0%Q], nlam0)
  | Some l =>
      neg <- r_if (r_any (map (fun d => dbl_lt d (Num 0%Q)) l)) ;;
      if neg then stop "lambdas should be non-negative"
      else ret (Num 1%Q, rev (r_sort l), Z.of_nat (List.length l))
  end.

Definition glmnet_stage2 (inp : glmnet_input) (fam : string) (s1 : stage1)
  : M fam_call :=
  let nobs := s1_nobs s1 in
  let nvars := s1_nvars s1 in
  alpha <- clamp_alpha (in_alpha inp) ;;
  let nlam0 := in_nlambda inp in
  let y := drop_y (s1_y s1) in
  if negb (nrowy y =? nobs)
  then stop "number of observations in y not equal to the number of rows of x" else
  let dfmax := match in_dfmax inp with Some d => d | None => (Z.of_nat nvars + 1)%Z end in
  let ne := dfmax in
  let nx := match in_pmax inp with
            | Some p => p | None => Z.min (dfmax * 2 + 20) (Z.of_nat nvars) end in
  let exclude0 := match in_exclude inp with Some e => e | None => [] end in
  let pf0 := s1_pf s1 in
  anyinf <- r_if (r_any (map (fun d => dbl_eq d PosInf) (m_vals pf0))) ;;
  let exclude := if anyinf
                 then sort_unique_Z (exclude0 ++ inf_positions nvars pf0)
                 else exclude0 in
  jdpf <- (match exclude with
           | [] => ret ([0%Z], pf0)
           | _ =>
               let jd := map (match_index nvars) exclude in
               if negb (forallb (fun j => (0 <? j)%Z) jd)
               then stop "Some excluded variables out of range"
               else ret (Z.of_nat (List.length jd) :: jd, set_ones jd pf0)
           end) ;;
  let (jd, pf) := jdpf in
  let mp := pf in
  let vp := firstn (m_nrow pf) (m_vals pf) in
  internal_parms <- get_cfg ;;
  trace_it <- (if negb (itrace internal_parms =? 0)%Z then ret 1%Z
               else if negb (in_trace_it inp =? 0)%Z then
                 _ <- modify_cfg (control_set_itrace 1) ;;
                 _ <- on_exit (control_set_itrace 0) ;;
                 ret (in_trace_it inp)
               else ret (in_trace_it inp)) ;;
  (* check on limits *)
  let lower0 := match in_lower_limits inp with Some l => l | None => [NegInf] end in
  let upper0 := match in_upper_limits inp with Some u => u | None => [PosInf] end in
  cl <- box_limits nvars (big internal_parms) lower0 upper0 ;;
  _ <- zero_bound_fdev cl ;;
  (* end check on limits *)
  let isd := bool_Z (in_standardize inp) in
  let intr := bool_Z (match in_intercept inp with Some b => b | None => true end) in
  _ <- (match in_intercept inp with
        | Some _ => if String.eqb fam "cox" then warning "Cox model has no intercept" else ret tt
        | None => ret tt
        end) ;;
  let jsd := bool_Z (in_standardize_response inp) in
  lam <- lambda_args nobs nvars (in_lambda_min_ratio inp) (in_lambda inp) nlam0 ;;
  let '(flmin, ulam, nlam) := lam in
  let is_sparse := x_sparse (in_x inp) in
  kopt0 <- (match match_arg_opt (in_type_logistic inp) ["Newton"; "modified.Newton"]%string with
            | Some "Newton"%string => ret 0%Z
            | Some _ => ret 1%Z
            | None => stop "'arg' should be one of Newton, modified.Newton"
            end) ;;
  kopt <- (if String.eqb fam "multinomial" then
             match match_arg_opt (in_type_multinomial inp) ["ungrouped"; "grouped"]%string with
             | Some "grouped"%string => ret 2%Z
             | Some _ => ret kopt0
             | None => stop "'arg' should be one of ungrouped, grouped"
             end
           else ret kopt0) ;;
  let type_gaussian := match in_type_gaussian inp with
                       | Some t => t | None => default_type_gaussian nvars end in
  ret (mkfam_call fam (in_x inp) is_sparse y (s1_weights s1) (in_offset inp)
         type_gaussian alpha nobs nvars jd vp mp cl ne nx nlam flmin ulam
         (in_thresh inp) isd intr jsd (in_maxit inp) kopt).

(** ** The family fits [elnet] and [fishnet] *)

(** Modelled from the spec: the message lookup [jerr] (not in src/).  The
    path driver reports through the sign of [jerr]: a positive code
    (allocation failure, zero-variance predictor) is fatal, a negative code
    (path truncated at step k: non-convergence, saturation, dfmax/pmax) is
    not. *)
Definition jerr_fatal (code : Z) : bool := (0 <? code)%Z.

Definition jerr_msg (code : Z) : string :=
  if jerr_fatal code then "fatal error in the path solver; no fit returned"
  else "path solver stopped early; solutions for larger lambdas returned".

(** Modelled from the spec: [getcoef] (not in src/) unpacks the first [lmu]
    columns of the compressed path: in column m, beta[ia[k]] = ca[k,m] for
    k <= nin[m]; the intercepts, the counts [nin] and the lambdas [alm] are
    cut to their first [lmu] entries. *)
Definition getcoef_beta (co : core_out) : list (list (Z * dbl)) :=
  map (fun m => let k := Z.to_nat (nth m (co_nin co) 0%Z) in
                combine (firstn k (co_ia co)) (firstn k (nth m (co_ca co) [])))
      (seq 0 (co_lmu co)).

(** The common tail of [elnet] and [fishnet] (unnamed file lines 49-56,
    glmnet.R lines 581-588): the [jerr] check, [getcoef], and
    [dev=fit$rsq[seq(fit$lmu)]] (resp. [fit$dev]). *)
Definition finish_fit (co : core_out) (nulldev : dbl) (is_offset : bool)
  : M fit_list :=
  _ <- (if negb (co_jerr co =? 0)%Z then
          if jerr_fatal (co_jerr co) then stop (jerr_msg (co_jerr co))
          else warning (jerr_msg (co_jerr co))
        else ret tt) ;;
  let lmu := co_lmu co in
  let dev := r_index (co_rsq co) (r_seq lmu) in
  ret (mkfit_list (firstn lmu (co_a0 co)) (getcoef_beta co) (firstn lmu (co_nin co))
         (firstn lmu (co_alm co)) dev nulldev (co_nlp co) (co_jerr co) is_offset None).

(** [weighted.mean(x, w)] (the default method, [na.rm = FALSE]). *)
Definition weighted_mean (x w : list dbl) : M dbl :=
  if negb (List.length w =? List.length x)
  then stop "'x' and 'w' must have the same length"
  else
    let xw := map (fun p => (dbl_mul (fst p) (snd p), dbl_eq (snd p) (Num 0%Q)))
                  (combine x w) in
    let kept := flat_map (fun p => match snd p with
                                   | LFalse => [fst p]
                                   | LTrue => []
                                   | LNA => [NA]
                                   end) xw in
    ret (dbl_div (r_sum kept) (r_sum w)).

(** [y - offset] keeping the shape of [y]. *)
Definition y_minus (y : yval) (off : list dbl) : M yval :=
  match y with
  | YVec v => ret (YVec (recycle dbl_sub v off NA NA))
  | YMat r c v => if List.length v <? List.length off
                  then stop "dims do not match the length of object"
                  else ret (YMat r c (recycle dbl_sub v off NA NA))
  end.

Definition y_map (f : dbl -> dbl) (y : yval) : yval :=
  match y with
  | YVec v => YVec (map f v)
  | YMat r c v => YMat r c (map f v)
  end.

(** Lines 20-22 of [elnet]: the null deviance. *)
Definition null_deviance (intr : Z) (y : list dbl) (w : list dbl) : M dbl :=
  ybar <- (if negb (intr =? 0)%Z then weighted_mean y w else ret (Num 0%Q)) ;;
  ret (r_sum (recycle dbl_mul w
                (map (fun d => let e := dbl_sub d ybar in dbl_mul e e) y) NA NA)).

Section FamilyFits.

Variable core : core_args -> config -> core_out.

(** The call into the compiled solver: logged, then run on the settings in
    force. *)
Definition call_core (ca : core_args) : M core_out :=
  c <- get_cfg ;;
  _ <- emit (EvCore ca c) ;;
  ret (core ca c).

(** [elnet] (unnamed file): up to the call into the solver. *)
Definition elnet_pre (fc : fam_call) : M (core_args * dbl * bool) :=
  ka <- (match match_arg (fc_type_gaussian fc) ["covariance"; "naive"]%string with
         | Some "covariance"%string => ret 1%Z
         | Some _ => ret 2%Z
         | None => stop "'arg' should be one of covariance, naive"
         end) ;;
  yo <- (match fc_offset fc with
         | None => ret (fc_y fc, false)
         | Some off => y' <- y_minus (fc_y fc) off ;; ret (y', true)
         end) ;;
  let (y, is_offset) := yo in
  nulldev <- null_deviance (fc_intr fc) (yvals y) (fc_weights fc) ;;
  cst <- r_if (dbl_eq nulldev (Num 0%Q)) ;;
  if cst then stop "y is constant; gaussian glmnet fails at standardization step"
  else
    ret (mkcore_args (KElnet ka) (fc_is_sparse fc) (fc_alpha fc) (fc_x fc) y None
           (fc_weights fc) (fc_jd fc) (fc_vp fc) (fc_mp fc) (fc_cl fc) (fc_ne fc)
           (fc_nx fc) (fc_nlam fc) (fc_flmin fc) (fc_ulam fc) (fc_thresh fc)
           (fc_isd fc) (fc_intr fc) (fc_maxit fc),
         nulldev, is_offset).

Definition elnet (fc : fam_call) : M fit_list :=
  p <- elnet_pre fc ;;
  let '(ca, nulldev, is_offset) := p in
  co <- call_core ca ;;
  finish_fit co nulldev is_offset.

(** [fishnet] (glmnet.R lines 542-591): up to the call into the solver. *)
Definition fishnet_pre (fc : fam_call) : M (core_args * bool) :=
  neg <- r_if (r_any (map (fun d => dbl_lt d (Num 0%Q)) (yvals (fc_y fc)))) ;;
  if neg then stop "negative responses encountered;  not permitted for Poisson family"
  else
    let '(off, is_offset) := match fc_offset fc with
                            | None => (y_map (fun d => dbl_mul d (Num 0%Q)) (fc_y fc), false)
                            | Some o => (YVec o, true)
                            end in
    ret (mkcore_args KFishnet (fc_is_sparse fc) (fc_alpha fc) (fc_x fc) (fc_y fc)
           (Some off) (fc_weights fc) (fc_jd fc) (fc_vp fc) (fc_mp fc) (fc_cl fc)
           (fc_ne fc) (fc_nx fc) (fc_nlam fc) (fc_flmin fc) (fc_ulam fc)
           (fc_thresh fc) (fc_isd fc) (fc_intr fc) (fc_maxit fc),
         is_offset).

Definition fishnet (fc : fam_call) : M fit_list :=
  p <- fishnet_pre fc ;;
  let '(ca, is_offset) := p in
  co <- call_core ca ;;
  finish_fit co (co_nulldev co) is_offset.

End FamilyFits.

(** ** [glmnet] *)

Inductive prep_res : Type :=
| PGlmnetPath (s1 : stage1)
| PCoxPath (s1 : stage1)
| PCall (fc : fam_call).

(** The arguments [glmnet.path] and [cox.path] receive (lines 388 and
    396): [y] as reshaped at lines 362-369, [weights] as defaulted at line
    376 and [penalty.factor] as evaluated at line 379; the other arguments
    as [glmnet] received them, a missing one standing for [glmnet]'s
    default. *)
Definition path_input (inp : glmnet_input) (s1 : stage1) : glmnet_input :=
  mkinput (in_x inp) (s1_y s1) (in_family inp) (Some (s1_weights s1)) (in_offset inp) (in_alpha inp) (in_nlambda inp) (in_lambda_min_ratio inp) (in_lambda inp) (in_standardize inp) (in_intercept inp) (in_thresh inp) (in_dfmax inp) (in_pmax inp) (in_exclude inp) (Some (s1_pf s1)) (in_lower_limits inp) (in_upper_limits inp) (in_maxit inp) (in_type_gaussian inp) (in_type_logistic inp) (in_standardize_response inp) (in_type_multinomial inp) (in_relax inp) (in_trace_it inp).

(** Lines 352-513: everything before the family fit is called. *)
Definition glmnet_prep (use_cox_path : xmat -> yval -> bool) (inp : glmnet_input)
  : M prep_res :=
  s1 <- glmnet_stage1 inp ;;
  match in_family inp with
  | FamObject => ret (PGlmnetPath s1)
  | _ =>
      let fname := match in_family inp with FamName s => s | _ => "gaussian"%string end in
      match match_arg fname family_names with
      | None => stop "'arg' should be one of gaussian, binomial, poisson, multinomial, cox, mgaussian"
      | Some fam =>
          if String.eqb fam "cox" && use_cox_path (in_x inp) (s1_y s1) then ret (PCoxPath s1)
          else fc <- glmnet_stage2 inp fam s1 ;; ret (PCall fc)
      end
  end.

(** Lines 515-522: the call of the family fit. *)
Definition dispatch (E : externals) (fc : fam_call) : M fit_list :=
  c <- get_cfg ;;
  _ <- emit (EvFamily fc c) ;;
  if String.eqb (fc_family fc) "gaussian" then elnet (ext_core E) fc
  else if String.eqb (fc_family fc) "poisson" then fishnet (ext_core E) fc
  else lift_ext (ext_family E (fc_family fc) fc c).

(** Lines 523-530: [fix.lam] only for an internally computed sequence. *)
Definition post_fit (E : externals) (inp : glmnet_input) (fc : fam_call) (fit : fit_list)
  : fit_list :=
  let fit1 := match in_lambda inp with
              | None => set_fl_lambda (ext_fix_lam E (fl_lambda fit)) fit
              | Some _ => fit
              end in
  set_fl_nobs (fc_nobs fc) fit1.

Definition glmnet_body (E : externals) (inp : glmnet_input) : M fit_list :=
  pr <- glmnet_prep (ext_use_cox_path E) inp ;;
  fit <- (match pr with
          | PGlmnetPath s1 => c <- get_cfg ;; lift_ext (ext_glmnet_path E (path_input inp s1) c)
          | PCoxPath s1 => c <- get_cfg ;; lift_ext (ext_cox_path E (path_input inp s1) c)
          | PCall fc => f <- dispatch E fc ;; ret (post_fit E inp fc f)
          end) ;;
  if in_relax inp then c <- get_cfg ;; lift_ext (ext_relax E fit c) else ret fit.

(** A call of [glmnet] from a fresh frame: the exit expression runs on the
    way out, whether the body returned or stopped. *)
Definition glmnet (E : externals) (inp : glmnet_input) (c0 : config) : res fit_list :=
  match glmnet_body E inp (mkst c0 None [] []) with
  | ROk f s => ROk f (exit_frame s)
  | RErr e s => RErr e (exit_frame s)
  end.

(** ** The lambda grid of the compiled solver *)

(** The value of a finite double as a real number. *)
Definition dbl_R (d : dbl) : R := match d with Num q => Q2R q | _ => 0%R end.

(** Modelled from the spec and from the comment of line 527: the lambda
    grid the compiled path solver (not in src/) emits.  With [flmin < 1] it
    is the grid of [nlam] values equally spaced on the log scale from the
    computed lambda_max down to [flmin * lambda_max], except that its first
    value is infinity ("first lambda is infinity; changed to entry point"),
    which the solver writes as the process-wide [big], the value glmnet puts
    for an infinite limit (lines 443-455).  With [flmin >= 1] it uses
    [ulam[1..nlam]] verbatim. *)
Definition core_lambda_grid (big lmax flmin : R) (ulam : list R) (nlam : nat) : list R :=
  if Rlt_dec flmin 1 then
    map (fun k => if k =? 0 then big
                  else (lmax * Rpower flmin (INR k / INR (nlam - 1)))%R) (seq 0 nlam)
  else firstn nlam ulam.

(** A solver whose [alm] is that grid, for some lambda_max computed from
    the data of the call. *)
Definition solver_grid (E : externals) (lmax : core_args -> config -> R) : Prop :=
  forall ca c,
    map dbl_R (co_alm (ext_core E ca c))
    = core_lambda_grid (dbl_R (big c)) (lmax ca c) (dbl_R (ca_flmin ca))
        (map dbl_R (ca_ulam ca)) (Z.to_nat (ca_nlam ca)).

(** A computation that logs no family fit and no solver call. *)
Definition no_emit {A : Type} (m : M A) : Prop :=
  forall s, st_log (final_state (m s)) = st_log s.




(** ** Concrete settings and inputs used by the witnesses *)

(** A settings record with the control values glmnet ships with. *)
Definition cfg_example : config :=
  mkconfig (1 # 100000) (999 # 1000) (1 # 1000000) (Num (99 * 10 ^ 34 # 1))
    5%Z (1 # 1000000000) 250 100%Z (1 # 100000000) 0%Z.

(** A solver that reports a path of two lambdas, and no other code. *)
Definition core_example (ca : core_args) (c : config) : core_out :=
  mkcore_out 2 [Num 0%Q; Num (1 # 2)] [[]; [Num (1 # 3)]] [1%Z] [0%Z; 1%Z]
    [Num 0%Q; Num (1 # 5)] (Num 1%Q) [Num 1%Q; Num (1 # 10)] 7%Z 0%Z.

Definition ext_example : externals :=
  mkext core_example (fun _ _ _ => inl "not modelled"%string)
    (fun _ _ => inl "not modelled"%string) (fun _ _ => inl "not modelled"%string)
    (fun _ _ => false) (fun l => l) (fun f _ => inr f).

Definition zd (z : Z) : dbl := Num (inject_Z z).

(** A dense 4 x 2 design. *)
Definition x_example : xmat :=
  mkxmat 4 2 (map zd [1; 2; 3; 4; 0; 1; 0; 1]%Z) false.

(** [glmnet(x, y, family)] with every other argument missing. *)
Definition input_example (x : xmat) (y : yval) (fam : fam_arg) : glmnet_input :=
  mkinput x y fam None None (Num 1%Q) 100%Z None None true None (Num (1 # 10000000))
    None None None None None None 100000%Z None None false None false 0%Z.



Definition with_alpha (v : dbl) (inp : glmnet_input) : glmnet_input :=
  mkinput (in_x inp) (in_y inp) (in_family inp) (in_weights inp) (in_offset inp) v (in_nlambda inp) (in_lambda_min_ratio inp) (in_lambda inp) (in_standardize inp) (in_intercept inp) (in_thresh inp) (in_dfmax inp) (in_pmax inp) (in_exclude inp) (in_penalty_factor inp) (in_lower_limits inp) (in_upper_limits inp) (in_maxit inp) (in_type_gaussian inp) (in_type_logistic inp) (in_standardize_response inp) (in_type_multinomial inp) (in_relax inp) (in_trace_it inp).

Definition with_lambda (v : option (list dbl)) (inp : glmnet_input) : glmnet_input :=
  mkinput (in_x inp) (in_y inp) (in_family inp) (in_weights inp) (in_offset inp) (in_alpha inp) (in_nlambda inp) (in_lambda_min_ratio inp) v (in_standardize inp) (in_intercept inp) (in_thresh inp) (in_dfmax inp) (in_pmax inp) (in_exclude inp) (in_penalty_factor inp) (in_lower_limits inp) (in_upper_limits inp) (in_maxit inp) (in_type_gaussian inp) (in_type_logistic inp) (in_standardize_response inp) (in_type_multinomial inp) (in_relax inp) (in_trace_it inp).

Definition with_intercept (v : option bool) (inp : glmnet_input) : glmnet_input :=
  mkinput (in_x inp) (in_y inp) (in_family inp) (in_weights inp) (in_offset inp) (in_alpha inp) (in_nlambda inp) (in_lambda_min_ratio inp) (in_lambda inp) (in_standardize inp) v (in_thresh inp) (in_dfmax inp) (in_pmax inp) (in_exclude inp) (in_penalty_factor inp) (in_lower_limits inp) (in_upper_limits inp) (in_maxit inp) (in_type_gaussian inp) (in_type_logistic inp) (in_standardize_response inp) (in_type_multinomial inp) (in_relax inp) (in_trace_it inp).

Definition with_lower_limits (v : option (list dbl)) (inp : glmnet_input) : glmnet_input :=
  mkinput (in_x inp) (in_y inp) (in_family inp) (in_weights inp) (in_offset inp) (in_alpha inp) (in_nlambda inp) (in_lambda_min_ratio inp) (in_lambda inp) (in_standardize inp) (in_intercept inp) (in_thresh inp) (in_dfmax inp) (in_pmax inp) (in_exclude inp) (in_penalty_factor inp) v (in_upper_limits inp) (in_maxit inp) (in_type_gaussian inp) (in_type_logistic inp) (in_standardize_response inp) (in_type_multinomial inp) (in_relax inp) (in_trace_it inp).

Definition with_trace_it (v : Z) (inp : glmnet_input) : glmnet_input :=
  mkinput (in_x inp) (in_y inp) (in_family inp) (in_weights inp) (in_offset inp) (in_alpha inp) (in_nlambda inp) (in_lambda_min_ratio inp) (in_lambda inp) (in_standardize inp) (in_intercept inp) (in_thresh inp) (in_dfmax inp) (in_pmax inp) (in_exclude inp) (in_penalty_factor inp) (in_lower_limits inp) (in_upper_limits inp) (in_maxit inp) (in_type_gaussian inp) (in_type_logistic inp) (in_standardize_response inp) (in_type_multinomial inp) (in_relax inp) v.

(** A number of [0,1]. *)
Definition in_unit (d : dbl) : Prop := exists q, d = Num q /\ (0 <= q <= 1)%Q.

(** A finite double. *)
Definition is_finite (d : dbl) : bool := match d with Num _ => true | _ => false end.

(** A fresh frame over the shipped settings. *)
Definition st0 : st := mkst cfg_example None [] [].

(** The value of a successful evaluation. *)
Definition ok_value {A : Type} (d : A) (r : res A) : A :=
  match r with ROk a _ => a | RErr _ _ => d end.

(** The family fits and solver calls a run made. *)
Definition family_calls {A : Type} (r : res A) : list fam_call :=
  flat_map (fun e => match e with EvFamily fc _ => [fc] | _ => [] end) (st_log (final_state r)).

Definition core_calls {A : Type} (r : res A) : list (core_args * config) :=
  flat_map (fun e => match e with EvCore ca c => [(ca, c)] | _ => [] end) (st_log (final_state r)).

Definition fc_dummy : fam_call :=
  mkfam_call EmptyString (mkxmat 0 0 [] false) false (YVec []) [] None EmptyString NA 0 0 [] []
    (mknmat 0 0 []) ([], []) 0 0 0 NA [] NA 0 0 0 0 0.

Definition stage1_dummy : stage1 := mkstage1 0 0 (YVec []) [] [] (mknmat 0 0 []).

(** The Poisson call of the examples with [alpha = 3]. *)
Definition input_alpha3 : glmnet_input :=
  with_alpha (Num 3%Q) (input_example x_example (YVec (map zd [1; 1; 2; 2]%Z)) (FamName "poisson")).

Definition stage1_alpha3 : res stage1 := glmnet_stage1 input_alpha3 st0.

Definition stage2_alpha3 : res fam_call :=
  glmnet_stage2 input_alpha3 "poisson" (ok_value stage1_dummy stage1_alpha3)
    (final_state stage1_alpha3).

(** The Poisson call of the examples, run through both stages. *)
Definition input_poisson : glmnet_input :=
  input_example x_example (YVec (map zd [1; 1; 2; 2]%Z)) (FamName "poisson").

Definition stage1_poisson : res stage1 := glmnet_stage1 input_poisson st0.

Definition stage2_poisson : res fam_call :=
  glmnet_stage2 input_poisson "poisson" (ok_value stage1_dummy stage1_poisson)
    (final_state stage1_poisson).

(** A square dense 4 x 4 design: [nobs = nvars]. *)
Definition x_square : xmat :=
  mkxmat 4 4 (map zd [1; 2; 3; 4; 0; 1; 0; 1; 2; 0; 1; 1; 5; 3; 1; 0]%Z) false.

Definition input_square : glmnet_input :=
  input_example x_square (YVec (map zd [1; 1; 2; 2]%Z)) (FamName "poisson").

(** The Poisson call with the user sequence [lambda = c(1, 1)]. *)
Definition input_lambda_tie : glmnet_input :=
  with_lambda (Some [zd 1; zd 1]) input_poisson.

Definition stage1_lambda_tie : res stage1 := glmnet_stage1 input_lambda_tie st0.

Definition stage2_lambda_tie : res fam_call :=
  glmnet_stage2 input_lambda_tie "poisson" (ok_value stage1_dummy stage1_lambda_tie)
    (final_state stage1_lambda_tie).

(** The 4 x 2 design of the examples stored as a [sparseMatrix]. *)
Definition x_sparse_example : xmat :=
  mkxmat 4 2 (map zd [1; 2; 3; 4; 0; 1; 0; 1]%Z) true.

(** A Gaussian call on the sparse design, without intercept. *)
Definition input_sparse_gaussian : glmnet_input :=
  with_intercept (Some false)
    (input_example x_sparse_example (YVec (map zd [1; 1; 2; 2]%Z)) (FamName "gaussian")).

Definition stage1_sparse_gaussian : res stage1 := glmnet_stage1 input_sparse_gaussian st0.

Definition stage2_sparse_gaussian : res fam_call :=
  glmnet_stage2 input_sparse_gaussian "gaussian" (ok_value stage1_dummy stage1_sparse_gaussian)
    (final_state stage1_sparse_gaussian).

Definition elnet_pre_sparse_gaussian : res (core_args * dbl * bool) :=
  elnet_pre (ok_value fc_dummy stage2_sparse_gaussian) st0.

Definition ca_dummy : core_args :=
  mkcore_args KFishnet false NA (mkxmat 0 0 [] false) (YVec []) None [] [] [] (mknmat 0 0 [])
    ([], []) 0 0 0 NA [] NA 0 0 0.









(** A solver that fails to converge at the first lambda: [lmu = 0] and the
    non-fatal code [jerr = -10001]; its output arrays keep their allocated
    length [nlam], filled with zeros. *)
Definition core_lmu0 (ca : core_args) (c : config) : core_out :=
  let z := repeat (Num 0%Q) (Z.to_nat (ca_nlam ca)) in
  mkcore_out 0 z [] [] (repeat 0%Z (Z.to_nat (ca_nlam ca))) z (Num 1%Q) z 0%Z (-10001)%Z.

Definition ext_lmu0 : externals :=
  mkext core_lmu0 (ext_family ext_example) (ext_glmnet_path ext_example)
    (ext_cox_path ext_example) (ext_use_cox_path ext_example) (ext_fix_lam ext_example)
    (ext_relax ext_example).

Definition fit_dummy : fit_list := mkfit_list [] [] [] [] [] NA 0 0 false None.

(** Solver outputs with a nonzero [jerr]: a fatal code, and the non-fatal
    code of a path cut after its first lambda (non-convergence at the
    second), its arrays keeping their allocated length 2. *)
Definition core_out_fatal : core_out :=
  mkcore_out 0 [] [] [] [] [] (Num 1%Q) [] 0%Z 1%Z.

Definition core_out_cut : core_out :=
  mkcore_out 1 [Num 0%Q; Num (1 # 2)] [[]; [Num (1 # 3)]] [1%Z] [0%Z; 1%Z]
    [Num 0%Q; Num (1 # 5)] (Num 1%Q) [Num 1%Q; Num (1 # 10)] 7%Z (-10002)%Z.

(** A solver that follows [core_lambda_grid] with lambda_max = 0 and fits
    the whole path. *)
Definition grid_alm (ca : core_args) (c : config) : list dbl :=
  let n := Z.to_nat (ca_nlam ca) in
  let stand_in := map (fun k => if k =? 0 then big c else Num 0%Q) (seq 0 n) in
  match ca_flmin ca with
  | Num q => if Qle_bool 1 q then firstn n (ca_ulam ca) else stand_in
  | _ => stand_in
  end.

Definition core_grid (ca : core_args) (c : config) : core_out :=
  let n := Z.to_nat (ca_nlam ca) in
  mkcore_out n (repeat (Num 0%Q) n) [] [] (repeat 0%Z n) (repeat (Num 0%Q) n) (Num 1%Q)
    (grid_alm ca c) 1%Z 0%Z.

Definition ext_grid : externals :=
  mkext core_grid (ext_family ext_example) (ext_glmnet_path ext_example)
    (ext_cox_path ext_example) (ext_use_cox_path ext_example) (ext_fix_lam ext_example)
    (ext_relax ext_example).

(** The Poisson call of the examples over the solver that stops at once. *)
Definition run_lmu0 : res fit_list := glmnet ext_lmu0 input_poisson cfg_example.

(** The Poisson call with a zero lower bound and [trace.it = 1]. *)
Definition input_trace_zero_bound : glmnet_input :=
  with_trace_it 1 (with_lower_limits (Some [Num 0%Q]) input_poisson).

Definition run_trace_zero_bound : res fit_list :=
  glmnet ext_example input_trace_zero_bound cfg_example.

Definition zero_bound_example : res unit := zero_bound_fdev ([Num 0%Q; NegInf], [PosInf; PosInf]) st0.

Definition with_exclude (v : option (list Z)) (inp : glmnet_input) : glmnet_input :=
  mkinput (in_x inp) (in_y inp) (in_family inp) (in_weights inp) (in_offset inp) (in_alpha inp) (in_nlambda inp) (in_lambda_min_ratio inp) (in_lambda inp) (in_standardize inp) (in_intercept inp) (in_thresh inp) (in_dfmax inp) (in_pmax inp) v (in_penalty_factor inp) (in_lower_limits inp) (in_upper_limits inp) (in_maxit inp) (in_type_gaussian inp) (in_type_logistic inp) (in_standardize_response inp) (in_type_multinomial inp) (in_relax inp) (in_trace_it inp).

Definition with_penalty_factor (v : option nmat) (inp : glmnet_input) : glmnet_input :=
  mkinput (in_x inp) (in_y inp) (in_family inp) (in_weights inp) (in_offset inp) (in_alpha inp) (in_nlambda inp) (in_lambda_min_ratio inp) (in_lambda inp) (in_standardize inp) (in_intercept inp) (in_thresh inp) (in_dfmax inp) (in_pmax inp) (in_exclude inp) v (in_lower_limits inp) (in_upper_limits inp) (in_maxit inp) (in_type_gaussian inp) (in_type_logistic inp) (in_standardize_response inp) (in_type_multinomial inp) (in_relax inp) (in_trace_it inp).

(** The Poisson call with [exclude = 2] and a 2 x 2 [penalty.factor] whose
    first entry is [Inf]. *)
Definition input_excl_inf : glmnet_input :=
  with_exclude (Some [2%Z])
    (with_penalty_factor (Some (mknmat 2 2 [PosInf; Num 1%Q; Num 1%Q; Num 1%Q])) input_poisson).

Definition stage1_excl_inf : res stage1 := glmnet_stage1 input_excl_inf st0.

Definition stage2_excl_inf : res fam_call :=
  glmnet_stage2 input_excl_inf "poisson" (ok_value stage1_dummy stage1_excl_inf)
    (final_state stage1_excl_inf).

(** The doubles nearest to [0.3] and to [0.1 + 0.2]: they differ in
    the last bit, [0.3 == 0.1 + 0.2] is [FALSE] in R. *)
Definition dbl_03 : dbl := Num (5404319552844595 # 18014398509481984).
Definition dbl_01_02 : dbl := Num (5404319552844596 # 18014398509481984).

(** The response [c(0.3, 0.1 + 0.2, 1, 1)] read as classes. *)
Definition y_close : list dbl := [dbl_03; dbl_01_02; zd 1; zd 1].

Definition shape_close : res (yval * list nat) :=
  shape_response (YVec y_close) st0.

(** A 4 x 3 matrix response with the default [penalty.factor]. *)
Definition input_ymat : glmnet_input :=
  input_example x_example (YMat 4 3 (map zd [1; 0; 0; 1; 0; 1; 0; 0; 0; 0; 1; 0]%Z))
    (FamName "mgaussian").

Definition stage1_ymat : res stage1 := glmnet_stage1 input_ymat st0.

(** The family call of the Poisson example, and [fishnet] on it. *)
Definition fc_poisson : fam_call := ok_value fc_dummy stage2_poisson.

Definition fishnet_pre_poisson : res (core_args * bool) := fishnet_pre fc_poisson st0.




(** The Gaussian call on the sparse design, and [elnet] on it. *)
Definition fc_sparse_gaussian : fam_call := ok_value fc_dummy stage2_sparse_gaussian.

Definition elnet_sparse_gaussian : res fit_list := elnet core_example fc_sparse_gaussian st0.

(** A Poisson family call with a negative response value. *)
Definition fc_neg_y : fam_call :=
  mkfam_call "poisson" x_example false (YVec [zd 1; zd (-1); zd 2; zd 3])
    (repeat (Num 1%Q) 4) None "covariance" (Num 1%Q) 4 2 [0%Z] [Num 1%Q; Num 1%Q]
    (mknmat 2 1 [Num 1%Q; Num 1%Q]) ([zd (-1); zd (-1)], [zd 1; zd 1]) 3 2 100
    (Num (1 # 10000)) [Num 0%Q] (Num (1 # 10000000)) 1 1 0 100000 0.

(** The settings and exit expression a run of [glmnet] can be in: the entry
    settings with no exit expression; [itrace] raised to 1 with the exit
    expression that lowers it (only when [fdev] is 0); or [fdev] lowered to 0
    with the exit expression that puts it back. *)
Definition settings_inv (c0 : config) (c : config) (o : option (config -> config)) : Prop :=
  (c = c0 /\ o = None) \/
  (Qeq_bool (fdev c0) 0%Q = true /\ itrace c0 = 0%Z /\
   c = control_set_itrace 1 c0 /\ o = Some (control_set_itrace 0)) \/
  (Qeq_bool (fdev c0) 0%Q = false /\
   c = control_set_fdev 0%Q c0 /\ o = Some (control_set_fdev (fdev c0))).



(** [m] keeps a property of the settings and of the exit expression. *)
Definition keeps_inv {A : Type} (P : config -> option (config -> config) -> Prop) (m : M A)
  : Prop :=
  forall s, P (st_cfg s) (st_onexit s) ->
            P (st_cfg (final_state (m s))) (st_onexit (final_state (m s))).

(** ** Reasoning about the evaluation monad *)

Lemma bind_ok_inv {A B : Type} (m : M A) (k : A -> M B) s b s' :
  bind m k s = ROk b s' -> exists a s1, m s = ROk a s1 /\ k a s1 = ROk b s'.
Proof.
  unfold bind. destruct (m s) as [a s1 | e s1]; intros H; [eauto | discriminate].
Qed.

Lemma bind_err {A B : Type} (m : M A) (k : A -> M B) s e s1 :
  m s = RErr e s1 -> bind m k s = RErr e s1.
Proof. unfold bind. intros H. rewrite H. reflexivity. Qed.

Lemma bind_ok {A B : Type} (m : M A) (k : A -> M B) s a s1 :
  m s = ROk a s1 -> bind m k s = k a s1.
Proof. unfold bind. intros H. rewrite H. reflexivity. Qed.

Lemma r_if_ok c s b s' : r_if c s = ROk b s' -> s' = s /\ c = lgl_of_bool b.
Proof. destruct c; simpl; unfold ret, stop; intros H; try discriminate; injection H as <- <-; auto. Qed.

(** Take apart a hypothesis [body s = ROk v s'] along the binds, tests and
    matches of [body]. *)
Ltac peel_one H :=
  match type of H with
  | bind _ _ _ = ROk _ _ =>
      let a := fresh "v" in let s1 := fresh "s" in let Hm := fresh "Hm" in
      apply bind_ok_inv in H; destruct H as (a & s1 & Hm & H); cbv beta zeta in H
  | stop _ _ = ROk _ _ => discriminate H
  | ret _ _ = ROk _ _ => unfold ret in H; injection H; clear H; intros; subst
  | (let _ := _ in _) _ = ROk _ _ => cbv zeta in H
  | (if ?b then _ else _) _ = ROk _ _ =>
      let E := fresh "E" in destruct b eqn:E
  | (match ?x with _ => _ end) _ = ROk _ _ =>
      let E := fresh "E" in destruct x eqn:E
  end.

Ltac peel H := repeat peel_one H.

(** Also take apart the primitive steps, and every step the binds expose. *)
Ltac peel_all :=
  repeat match goal with
  | H : bind _ _ _ = ROk _ _ |- _ => peel_one H
  | H : stop _ _ = ROk _ _ |- _ => discriminate H
  | H : ret _ _ = ROk _ _ |- _ => peel_one H
  | H : (if _ then _ else _) _ = ROk _ _ |- _ => peel_one H
  | H : (match _ with _ => _ end) _ = ROk _ _ |- _ => peel_one H
  | H : r_if _ _ = ROk _ _ |- _ =>
      let Hs := fresh "Hs" in let Hc := fresh "Hc" in
      apply r_if_ok in H; destruct H as [Hs Hc]; subst
  | H : warning _ _ = ROk _ _ |- _ => unfold warning in H; injection H; clear H; intros; subst
  | H : get_cfg _ = ROk _ _ |- _ => unfold get_cfg in H; injection H; clear H; intros; subst
  | H : modify_cfg _ _ = ROk _ _ |- _ => unfold modify_cfg in H; injection H; clear H; intros; subst
  | H : on_exit _ _ = ROk _ _ |- _ => unfold on_exit in H; injection H; clear H; intros; subst
  | H : emit _ _ = ROk _ _ |- _ => unfold emit in H; injection H; clear H; intros; subst
  end.

(** ** Facts about R comparisons *)

Lemma Qltb_true p q : Qltb p q = true <-> (p < q)%Q.
Proof.
  unfold Qltb. rewrite negb_true_iff. split; intros H.
  - apply Qnot_le_lt. intros H'. apply Qle_bool_iff in H'. congruence.
  - destruct (Qle_bool q p) eqn:E; auto. apply Qle_bool_iff in E. apply Qle_not_lt in E. contradiction.
Qed.

Lemma Qltb_false p q : Qltb p q = false <-> (q <= p)%Q.
Proof.
  unfold Qltb. rewrite negb_false_iff. apply Qle_bool_iff.
Qed.

Lemma not_gt1_not_lt0 a :
  dbl_gt a (Num 1%Q) = LFalse -> dbl_lt a (Num 0%Q) = LFalse -> in_unit a.
Proof.
  unfold dbl_gt. destruct a as [q | | | |]; simpl; try discriminate.
  unfold lgl_of_bool. destruct (Qltb 1 q) eqn:E1; try discriminate.
  destruct (Qltb q 0) eqn:E2; try discriminate. intros _ _.
  apply Qltb_false in E1. apply Qltb_false in E2. exists q. split; auto.
Qed.

Lemma lgl_of_bool_true b : lgl_of_bool b = LTrue -> b = true.
Proof. destruct b; simpl; congruence. Qed.

Lemma lgl_of_bool_false b : lgl_of_bool b = LFalse -> b = false.
Proof. destruct b; simpl; congruence. Qed.

(** ** Lines 403-411: alpha *)

Lemma clamp_alpha_unit a s a' s' : clamp_alpha a s = ROk a' s' -> in_unit a'.
Proof.
  intros H. unfold clamp_alpha in H. peel_all.
  - exists 0%Q. split; [reflexivity | split; discriminate].
  - exists 0%Q. split; [reflexivity | split; discriminate].
  - exists 1%Q. split; [reflexivity | split; discriminate].
  - apply not_gt1_not_lt0; assumption.
Qed.

Lemma elnet_pre_passes fc s r s' :
  elnet_pre fc s = ROk r s' ->
  let ca := fst (fst r) in
  ca_parm ca = fc_alpha fc /\ ca_cl ca = fc_cl fc /\ ca_flmin ca = fc_flmin fc /\
  ca_ulam ca = fc_ulam fc /\ ca_nlam ca = fc_nlam fc /\ ca_weights ca = fc_weights fc /\
  ca_x ca = fc_x fc /\ ca_sparse ca = fc_is_sparse fc.
Proof. intros H. unfold elnet_pre in H. peel H; simpl; tauto. Qed.

Lemma fishnet_pre_passes fc s r s' :
  fishnet_pre fc s = ROk r s' ->
  let ca := fst r in
  ca_parm ca = fc_alpha fc /\ ca_cl ca = fc_cl fc /\ ca_flmin ca = fc_flmin fc /\
  ca_ulam ca = fc_ulam fc /\ ca_nlam ca = fc_nlam fc /\ ca_weights ca = fc_weights fc /\
  ca_x ca = fc_x fc /\ ca_sparse ca = fc_is_sparse fc.
Proof. intros H. unfold fishnet_pre in H. peel H; simpl; tauto. Qed.

Lemma clamp_alpha_cfg a s a' s' : clamp_alpha a s = ROk a' s' -> st_cfg s' = st_cfg s.
Proof. intros H. unfold clamp_alpha in H. peel_all; reflexivity. Qed.

(** What [glmnet_stage2] hands to the family fit comes from its blocks. *)
Lemma stage2_blocks inp fam s1 s fc s' :
  glmnet_stage2 inp fam s1 s = ROk fc s' ->
  (exists sa sa', clamp_alpha (in_alpha inp) sa = ROk (fc_alpha fc) sa') /\
  (exists sb sb', box_limits (s1_nvars s1) (big (st_cfg s))
                    (match in_lower_limits inp with Some l => l | None => [NegInf] end)
                    (match in_upper_limits inp with Some u => u | None => [PosInf] end) sb
                  = ROk (fc_cl fc) sb') /\
  (exists sc sc', lambda_args (s1_nobs s1) (s1_nvars s1) (in_lambda_min_ratio inp)
                    (in_lambda inp) (in_nlambda inp) sc
                  = ROk (fc_flmin fc, fc_ulam fc, fc_nlam fc) sc') /\
  fc_nvars fc = s1_nvars s1 /\ fc_nobs fc = s1_nobs s1 /\ fc_is_sparse fc = x_sparse (in_x inp) /\
  fc_type_gaussian fc = match in_type_gaussian inp with
                        | Some t => t | None => default_type_gaussian (s1_nvars s1) end /\
  nrowy (fc_y fc) = s1_nobs s1.
Proof.
  intros H. unfold glmnet_stage2 in H. peel H.
  unfold get_cfg in Hm2. injection Hm2 as <- <-.
  assert (Hc : st_cfg s3 = st_cfg s).
  { apply clamp_alpha_cfg in Hm. apply r_if_ok in Hm0. destruct Hm0 as [-> _].
    clear - Hm Hm1. peel_all; assumption. }
  rewrite Hc in Hm4.
  apply negb_false_iff, Nat.eqb_eq in E.
  simpl. repeat split; eauto.
Qed.

Lemma clamp_alpha_total a s :
  is_na a = false ->
  exists a' s', clamp_alpha a s = ROk a' s' /\ st_cfg s' = st_cfg s /\ st_log s' = st_log s /\
   ((dbl_gt a (Num 1%Q) = LTrue /\ a' = Num 1%Q /\
       st_warns s' = st_warns s ++ ["alpha >1; set to 1"%string]) \/
    (dbl_lt a (Num 0%Q) = LTrue /\ a' = Num 0%Q /\
       st_warns s' = st_warns s ++ ["alpha<0; set to 0"%string]) \/
    (dbl_gt a (Num 1%Q) = LFalse /\ dbl_lt a (Num 0%Q) = LFalse /\ a' = a /\
       st_warns s' = st_warns s)).
Proof.
  intros Hna. destruct s as [c h w l].
  destruct a as [q | | | |]; try discriminate; unfold clamp_alpha, bind, r_if, warning, ret.
  - unfold dbl_gt. destruct (Qltb 1 q) eqn:E1; simpl; rewrite ?E1; simpl.
    + eexists _, _. split; [reflexivity |]. simpl. repeat split; auto.
    + destruct (Qltb q 0) eqn:E2; simpl; rewrite ?E2; simpl.
      * eexists _, _. split; [reflexivity |]. simpl. repeat split; auto.
      * eexists _, _. split; [reflexivity |]. simpl. repeat split; auto.
        right; right. simpl. rewrite ?E1, ?E2. auto.
  - simpl. eexists _, _. split; [reflexivity |]. simpl. repeat split; auto.
  - simpl. eexists _, _. split; [reflexivity |]. simpl. repeat split; auto.
Qed.

(** C9.  Lines 403-411 never fail on an alpha that is a number or an
    infinity: above 1 it becomes 1 and below 0 it becomes 0, each time with a
    warning, and it is left alone in [0,1].  Hence the alpha [glmnet] hands to
    the family fit, and the [parm] [elnet] and [fishnet] hand to the solver,
    lie in [0,1]. *)
Theorem alpha_clamped_into_unit :
  (forall a s, is_na a = false ->
    exists a' s', clamp_alpha a s = ROk a' s' /\ st_cfg s' = st_cfg s /\ st_log s' = st_log s /\
     ((dbl_gt a (Num 1%Q) = LTrue /\ a' = Num 1%Q /\
         st_warns s' = st_warns s ++ ["alpha >1; set to 1"%string]) \/
      (dbl_lt a (Num 0%Q) = LTrue /\ a' = Num 0%Q /\
         st_warns s' = st_warns s ++ ["alpha<0; set to 0"%string]) \/
      (dbl_gt a (Num 1%Q) = LFalse /\ dbl_lt a (Num 0%Q) = LFalse /\ a' = a /\
         st_warns s' = st_warns s))) /\
  (forall inp fam s1 s fc s', glmnet_stage2 inp fam s1 s = ROk fc s' ->
     in_unit (fc_alpha fc) /\
     (forall s2 r s3, elnet_pre fc s2 = ROk r s3 -> in_unit (ca_parm (fst (fst r)))) /\
     (forall s2 r s3, fishnet_pre fc s2 = ROk r s3 -> in_unit (ca_parm (fst r)))).
Proof.
  split.
  - exact clamp_alpha_total.
  - intros inp fam s1 s fc s' H.
    destruct (stage2_blocks _ _ _ _ _ _ H) as [(sa & sa' & Ha) _].
    apply clamp_alpha_unit in Ha.
    split; [exact Ha | split].
    + intros s2 r s3 Hr. apply elnet_pre_passes in Hr. destruct Hr as [-> _]. exact Ha.
    + intros s2 r s3 Hr. apply fishnet_pre_passes in Hr. destruct Hr as [-> _]. exact Ha.
Qed.

Lemma alpha_clamped_into_unit_witness :
  (exists a' s', clamp_alpha (Num 3%Q) st0 = ROk a' s' /\ a' = Num 1%Q) /\
  in_unit (fc_alpha (ok_value fc_dummy stage2_alpha3)).
Proof.
  split.
  - destruct (proj1 alpha_clamped_into_unit (Num 3%Q) st0 eq_refl)
      as (a' & s' & H & _ & _ & [(_ & Ha & _) | [(Hlt & _) | (Hgt & _)]]).
    + exists a', s'. auto.
    + vm_compute in Hlt. discriminate.
    + vm_compute in Hgt. discriminate.
  - refine (proj1 (proj2 alpha_clamped_into_unit input_alpha3 "poisson"%string
             (ok_value stage1_dummy stage1_alpha3) (final_state stage1_alpha3)
             (ok_value fc_dummy stage2_alpha3) (final_state stage2_alpha3) _)).
    vm_compute. reflexivity.
Defined.

(** ** Box limits *)

Lemma r_any_false v : r_any v = LFalse -> forall l, In l v -> l = LFalse.
Proof.
  unfold r_any. destruct (existsb _ v) eqn:E1; [discriminate|].
  destruct (existsb (fun l => match l with LNA => true | _ => false end) v) eqn:E2; [discriminate|].
  intros _ l Hl. destruct l; auto.
  - exfalso. assert (existsb (fun l => match l with LTrue => true | _ => false end) v = true)
      by (apply existsb_exists; eauto). congruence.
  - exfalso. assert (existsb (fun l => match l with LNA => true | _ => false end) v = true)
      by (apply existsb_exists; eauto). congruence.
Qed.

Lemma lower_entry_finite big d :
  is_finite big = true -> dbl_gt d (Num 0%Q) = LFalse ->
  is_finite (match dbl_eq d NegInf with LTrue => dbl_neg big | _ => d end) = true.
Proof. destruct big; try discriminate; destruct d; simpl; try discriminate; auto. Qed.

Lemma upper_entry_finite big d :
  is_finite big = true -> dbl_lt d (Num 0%Q) = LFalse ->
  is_finite (match dbl_eq d PosInf with LTrue => big | _ => d end) = true.
Proof. destruct big; try discriminate; destruct d; simpl; try discriminate; auto. Qed.

Lemma r_index_seq_in (lim : list dbl) n :
  n <> 0 -> n <= List.length lim ->
  List.length (r_index lim (r_seq n)) = n /\ forall d, In d (r_index lim (r_seq n)) -> In d lim.
Proof.
  intros Hn Hle. destruct n as [|n']; [congruence|].
  unfold r_index, r_seq.
  rewrite (forallb_filter_id _ (seq 1 (S n'))).
  2:{ apply forallb_forall. intros i Hi. apply in_seq in Hi.
      apply negb_true_iff, Nat.eqb_neq. lia. }
  split.
  - rewrite length_map, length_seq. reflexivity.
  - intros d Hd. apply in_map_iff in Hd. destruct Hd as (i & <- & Hi).
    apply in_seq in Hi. apply nth_In. lia.
Qed.

Lemma fit_length_ok (P : dbl -> Prop) what n lim s l s' :
  n <> 0 -> Forall P lim -> fit_length what n lim s = ROk l s' ->
  Forall P l /\ List.length l = n.
Proof.
  intros Hn HP H. unfold fit_length in H.
  destruct (List.length lim <? n) eqn:E1.
  - destruct (List.length lim =? 1) eqn:E2; [|discriminate].
    unfold ret in H. injection H as <- _.
    apply Nat.eqb_eq in E2. destruct lim as [|d [|]]; try discriminate. simpl.
    split; [| apply repeat_length].
    apply Forall_forall. intros x Hx. apply repeat_spec in Hx. subst. inversion HP; auto.
  - unfold ret in H. injection H as <- _. apply Nat.ltb_ge in E1.
    destruct (r_index_seq_in lim n Hn E1) as [Hl Hin]. split; [|exact Hl].
    apply Forall_forall. intros x Hx. rewrite Forall_forall in HP. auto.
Qed.

Lemma box_limits_finite nvars big lower0 upper0 s cl s' :
  nvars <> 0 -> is_finite big = true ->
  box_limits nvars big lower0 upper0 s = ROk cl s' ->
  Forall (fun d => is_finite d = true) (fst cl) /\ List.length (fst cl) = nvars /\
  Forall (fun d => is_finite d = true) (snd cl) /\ List.length (snd cl) = nvars.
Proof.
  intros Hn Hb H. unfold box_limits in H. peel H.
  apply r_if_ok in Hm. destruct Hm as [-> Hlo].
  apply r_if_ok in Hm0. destruct Hm0 as [-> Hup].
  change (lgl_of_bool false) with LFalse in Hlo, Hup.
  pose proof (r_any_false _ Hlo) as Hlo'. pose proof (r_any_false _ Hup) as Hup'.
  apply fit_length_ok with (P := fun d => is_finite d = true) in Hm1; [| exact Hn |].
  2:{ apply Forall_forall. intros x Hx. unfold replace_where in Hx.
      apply in_map_iff in Hx. destruct Hx as (d & <- & Hd).
      apply lower_entry_finite; [exact Hb|]. apply Hlo'. apply in_map_iff. eauto. }
  apply fit_length_ok with (P := fun d => is_finite d = true) in Hm2; [| exact Hn |].
  2:{ apply Forall_forall. intros x Hx. unfold replace_where in Hx.
      apply in_map_iff in Hx. destruct Hx as (d & <- & Hd).
      apply upper_entry_finite; [exact Hb|]. apply Hup'. apply in_map_iff. eauto. }
  simpl. tauto.
Qed.

Lemma box_limits_scalar nvars big d u s cl s' :
  1 < nvars -> box_limits nvars big [d] u s = ROk cl s' ->
  fst cl = repeat (match dbl_eq d NegInf with LTrue => dbl_neg big | _ => d end) nvars.
Proof.
  intros Hn H. unfold box_limits in H. peel H.
  unfold fit_length in Hm1. simpl in Hm1.
  destruct nvars as [|[|n]]; try lia. simpl in Hm1.
  unfold ret in Hm1. injection Hm1 as <- _. reflexivity.
Qed.

Lemma box_limits_scalar_upper nvars big l u s cl s' :
  1 < nvars -> box_limits nvars big l [u] s = ROk cl s' ->
  snd cl = repeat (match dbl_eq u PosInf with LTrue => big | _ => u end) nvars.
Proof.
  intros Hn H. unfold box_limits in H. peel H.
  unfold fit_length in Hm2. simpl in Hm2.
  destruct nvars as [|[|n]]; try lia. simpl in Hm2.
  unfold ret in Hm2. injection Hm2 as <- _. reflexivity.
Qed.

Lemma shape_response_cfg y s r s' : shape_response y s = ROk r s' -> st_cfg s' = st_cfg s.
Proof. intros H. unfold shape_response in H. peel_all; reflexivity. Qed.

Lemma stage1_facts inp s s1 s' :
  glmnet_stage1 inp s = ROk s1 s' ->
  st_cfg s' = st_cfg s /\ 1 < s1_nvars s1 /\ s1_nvars s1 = x_ncol (in_x inp).
Proof.
  intros H. unfold glmnet_stage1 in H. peel H.
  apply shape_response_cfg in Hm.
  apply Nat.leb_gt in E.
  assert (st_cfg s' = st_cfg s0).
  { clear - Hm0 Hm1. peel_all; reflexivity. }
  simpl. repeat split; congruence.
Qed.

(** C10.  Lines 443-455: when [glmnet] gets past its checks on the limits,
    an infinite lower limit has become [-big] and an infinite upper limit
    [+big], a limit of length one has been repeated over the [p] columns,
    and, as long as [big] is finite, both limit vectors that reach the
    family fit, and through [elnet] and [fishnet] the solver, are finite and
    of length [p]. *)
Theorem box_limits_finite_length_p :
  (forall nvars big d u s cl s', 1 < nvars -> box_limits nvars big [d] u s = ROk cl s' ->
     fst cl = repeat (match dbl_eq d NegInf with LTrue => dbl_neg big | _ => d end) nvars) /\
  (forall nvars big l u s cl s', 1 < nvars -> box_limits nvars big l [u] s = ROk cl s' ->
     snd cl = repeat (match dbl_eq u PosInf with LTrue => big | _ => u end) nvars) /\
  (forall inp fam s0 s1 s fc s',
     is_finite (big (st_cfg s0)) = true ->
     glmnet_stage1 inp s0 = ROk s1 s ->
     glmnet_stage2 inp fam s1 s = ROk fc s' ->
     Forall (fun d => is_finite d = true) (fst (fc_cl fc)) /\
     List.length (fst (fc_cl fc)) = x_ncol (in_x inp) /\
     Forall (fun d => is_finite d = true) (snd (fc_cl fc)) /\
     List.length (snd (fc_cl fc)) = x_ncol (in_x inp) /\
     (forall s2 r s3, elnet_pre fc s2 = ROk r s3 -> ca_cl (fst (fst r)) = fc_cl fc) /\
     (forall s2 r s3, fishnet_pre fc s2 = ROk r s3 -> ca_cl (fst r) = fc_cl fc)).
Proof.
  split; [exact box_limits_scalar |].
  split; [exact box_limits_scalar_upper |].
  intros inp fam s0 s1 s fc s' Hb H1 H2.
  destruct (stage1_facts _ _ _ _ H1) as (Hc & Hn & Hx).
  destruct (stage2_blocks _ _ _ _ _ _ H2) as (_ & (sb & sb' & Hbox) & _).
  rewrite Hc in Hbox.
  apply box_limits_finite in Hbox; [| lia | exact Hb].
  rewrite <- Hx. destruct Hbox as (? & ? & ? & ?).
  repeat split; auto.
  - intros s2 r s3 Hr. apply elnet_pre_passes in Hr. tauto.
  - intros s2 r s3 Hr. apply fishnet_pre_passes in Hr. tauto.
Qed.

Lemma box_limits_finite_length_p_witness :
  Forall (fun d => is_finite d = true) (fst (fc_cl (ok_value fc_dummy stage2_poisson))) /\
  List.length (fst (fc_cl (ok_value fc_dummy stage2_poisson))) = 2.
Proof.
  destruct (proj2 (proj2 box_limits_finite_length_p) input_poisson "poisson"%string st0
              (ok_value stage1_dummy stage1_poisson) (final_state stage1_poisson)
              (ok_value fc_dummy stage2_poisson) (final_state stage2_poisson))
    as (Hf & Hl & _).
  - vm_compute. reflexivity.
  - vm_compute. reflexivity.
  - vm_compute. reflexivity.
  - split; [exact Hf | exact Hl].
Defined.

(** ** The lambda arguments *)

Lemma lambda_args_none nobs nvars lmr nlam0 s r s' :
  lambda_args nobs nvars lmr None nlam0 s = ROk r s' ->
  r = (match lmr with Some q => q | None => default_lambda_min_ratio nobs nvars end,
       [Num 0%Q], nlam0) /\
  dbl_lt (match lmr with Some q => q | None => default_lambda_min_ratio nobs nvars end)
         (Num 1%Q) = LTrue.
Proof.
  intros H. unfold lambda_args in H. peel H.
  apply r_if_ok in Hm. destruct Hm as [_ Hc]. unfold dbl_ge in Hc.
  split; [reflexivity|].
  destruct (dbl_lt _ _); simpl in Hc; congruence.
Qed.

Lemma lambda_args_some nobs nvars lmr l nlam0 s r s' :
  lambda_args nobs nvars lmr (Some l) nlam0 s = ROk r s' ->
  r = (Num 1%Q, rev (r_sort l), Z.of_nat (List.length l)) /\
  forall d, In d l -> dbl_lt d (Num 0%Q) = LFalse.
Proof.
  intros H. unfold lambda_args in H. peel H.
  apply r_if_ok in Hm. destruct Hm as [_ Hc].
  split; [reflexivity|].
  intros d Hd. apply (r_any_false _ Hc). apply in_map_iff. eauto.
Qed.

Lemma last_core_grid big lmax flmin ulam nlam :
  (0 < flmin < 1)%R -> 2 <= nlam ->
  last (core_lambda_grid big lmax flmin ulam nlam) 0%R = (lmax * flmin)%R.
Proof.
  intros Hf Hn. unfold core_lambda_grid.
  destruct (Rlt_dec flmin 1) as [_ | Hc]; [| lra].
  assert (Hs : seq 0 nlam = seq 0 (nlam - 1) ++ [0 + (nlam - 1)]).
  { rewrite <- seq_S. f_equal. lia. }
  rewrite Hs, map_app. cbn [map]. rewrite last_last. simpl.
  replace (nlam - 1 =? 0) with false by (symmetry; apply Nat.eqb_neq; lia).
  replace (INR (nlam - 1) / INR (nlam - 1))%R with 1%R.
  - rewrite Rpower_1; lra.
  - field. apply not_0_INR. lia.
Qed.

Lemma rpower_ge_base f a : (0 < f < 1)%R -> (a <= 1)%R -> (f <= Rpower f a)%R.
Proof.
  intros Hf Ha. rewrite <- (Rpower_1 f) at 1 by lra. unfold Rpower.
  assert (Hl : (ln f < 0)%R) by (rewrite <- ln_1; apply ln_increasing; lra).
  destruct (Req_dec a 1) as [-> | Hne]; [lra|].
  apply Rlt_le, exp_increasing. nra.
Qed.

Lemma core_grid_min big lmax flmin ulam nlam :
  (0 < flmin < 1)%R -> (0 <= lmax)%R -> (lmax * flmin <= big)%R ->
  forall x, In x (core_lambda_grid big lmax flmin ulam nlam) -> (lmax * flmin <= x)%R.
Proof.
  intros Hf Hl Hb x Hx. unfold core_lambda_grid in Hx.
  destruct (Rlt_dec flmin 1) as [_ | Hc]; [| lra].
  apply in_map_iff in Hx. destruct Hx as (k & <- & Hk). apply in_seq in Hk.
  destruct (k =? 0) eqn:E; [exact Hb|]. apply Nat.eqb_neq in E.
  apply Rmult_le_compat_l; [exact Hl|]. apply rpower_ge_base; [exact Hf|].
  assert (Hp : (0 < INR (nlam - 1))%R) by (apply lt_0_INR; lia).
  apply (Rmult_le_reg_r (INR (nlam - 1))); [exact Hp|].
  unfold Rdiv. rewrite Rmult_assoc, Rinv_l by lra. rewrite Rmult_1_r, Rmult_1_l.
  apply le_INR. lia.
Qed.

Lemma head_core_grid big lmax flmin ulam nlam :
  (flmin < 1)%R -> 1 <= nlam ->
  hd 0%R (core_lambda_grid big lmax flmin ulam nlam) = big.
Proof.
  intros Hf Hn. unfold core_lambda_grid.
  destruct (Rlt_dec flmin 1) as [_ | Hc]; [| lra].
  destruct nlam as [|n]; [lia|]. reflexivity.
Qed.

Lemma core_grid_user big lmax ulam :
  core_lambda_grid big lmax 1%R ulam (List.length ulam) = ulam.
Proof.
  unfold core_lambda_grid. destruct (Rlt_dec 1 1); [lra|]. apply firstn_all.
Qed.

(** ** Sorting *)

Lemma dbl_leb_total a b : dbl_leb a b = false -> dbl_leb b a = true.
Proof.
  unfold dbl_leb. destruct (dbl_lt b a) eqn:E; try discriminate. intros _.
  destruct (dbl_lt a b) eqn:E'; auto. exfalso.
  destruct a, b; simpl in E, E'; try discriminate.
  apply lgl_of_bool_true, Qltb_true in E. apply lgl_of_bool_true, Qltb_true in E'.
  apply (Qlt_irrefl q). apply Qlt_trans with q0; assumption.
Qed.

Lemma insert_sorted_perm a l : Permutation (insert_sorted a l) (a :: l).
Proof.
  induction l as [|b l IH]; simpl; auto.
  destruct (dbl_leb a b); auto.
  apply perm_trans with (b :: a :: l); [auto | apply perm_swap].
Qed.

Lemma isort_perm l : Permutation (isort l) l.
Proof.
  induction l as [|a l IH]; simpl; auto.
  eapply perm_trans; [apply insert_sorted_perm | auto].
Qed.

Lemma insert_sorted_sorted a l :
  Sorted (fun x y => dbl_leb x y = true) l ->
  Sorted (fun x y => dbl_leb x y = true) (insert_sorted a l).
Proof.
  induction 1 as [| b l Hs IH Hd]; simpl; [auto|].
  destruct (dbl_leb a b) eqn:E; [auto|].
  apply dbl_leb_total in E.
  constructor; [exact IH|].
  destruct l as [|c l]; simpl in *; [constructor; exact E|].
  destruct (dbl_leb a c); constructor; [exact E|]. inversion Hd; assumption.
Qed.

Lemma isort_sorted l : Sorted (fun x y => dbl_leb x y = true) (isort l).
Proof. induction l; simpl; [constructor | apply insert_sorted_sorted; auto]. Qed.

Lemma Sorted_snoc {A : Type} (R : A -> A -> Prop) m a :
  Sorted R m -> (m <> [] -> R (last m a) a) -> Sorted R (m ++ [a]).
Proof.
  induction m as [|b m IH]; intros Hs Hl; simpl; [auto|].
  inversion Hs as [| ? ? Hs' Hd]; subst.
  constructor.
  - apply IH; [exact Hs'|]. intros Hne. specialize (Hl ltac:(discriminate)).
    destruct m; [congruence | exact Hl].
  - destruct m as [|c m]; simpl.
    + constructor. apply Hl. discriminate.
    + constructor. inversion Hd; assumption.
Qed.

Lemma Sorted_rev {A : Type} (R : A -> A -> Prop) l :
  Sorted R l -> Sorted (fun x y => R y x) (rev l).
Proof.
  induction 1 as [| a l Hs IH Hd]; simpl; [constructor|].
  apply Sorted_snoc; [exact IH|].
  intros Hne. destruct l as [|b l]; [simpl in Hne; congruence|].
  simpl. rewrite last_last. inversion Hd; assumption.
Qed.

Lemma filter_not_na_id l :
  (forall d, In d l -> dbl_lt d (Num 0%Q) = LFalse) ->
  filter (fun d => negb (is_na d)) l = l.
Proof.
  intros H. apply forallb_filter_id, forallb_forall. intros d Hd.
  specialize (H d Hd). destruct d; simpl in *; auto; discriminate.
Qed.

(** C2.  With no user sequence, [glmnet] hands the solver
    [flmin = lambda.min.ratio] (which must be below 1) and a dummy [ulam];
    the default ratio is 1e-2 when [nobs < nvars] and 1e-4 otherwise, so
    1e-4 also when [nobs = nvars].  When [0 < flmin < 1] and [nlam >= 2],
    the grid the solver then computes ends at [flmin * lambda_max], and
    that is its smallest value (the first value, which stands for infinity,
    being at least as large). *)
Theorem lambda_min_ratio_default :
  (forall inp fam s1 s fc s',
     in_lambda inp = None -> glmnet_stage2 inp fam s1 s = ROk fc s' ->
     fc_flmin fc = match in_lambda_min_ratio inp with
                   | Some r => r
                   | None => if s1_nobs s1 <? s1_nvars s1 then Num (1 # 100) else Num (1 # 10000)
                   end /\
     dbl_lt (fc_flmin fc) (Num 1%Q) = LTrue /\ fc_ulam fc = [Num 0%Q] /\
     fc_nlam fc = in_nlambda inp /\
     (forall s2 r s3, elnet_pre fc s2 = ROk r s3 -> ca_flmin (fst (fst r)) = fc_flmin fc) /\
     (forall s2 r s3, fishnet_pre fc s2 = ROk r s3 -> ca_flmin (fst r) = fc_flmin fc)) /\
  (forall big lmax flmin ulam nlam,
     (0 < flmin < 1)%R -> 2 <= nlam -> (0 <= lmax)%R -> (lmax * flmin <= big)%R ->
     last (core_lambda_grid big lmax flmin ulam nlam) 0%R = (lmax * flmin)%R /\
     forall x, In x (core_lambda_grid big lmax flmin ulam nlam) -> (lmax * flmin <= x)%R).
Proof.
  split.
  2:{ intros big lmax flmin ulam nlam Hf Hn Hl Hb.
      split; [apply last_core_grid; assumption | apply core_grid_min; assumption]. }
  intros inp fam s1 s fc s' Hl H.
  destruct (stage2_blocks _ _ _ _ _ _ H) as (_ & _ & (sc & sc' & Hlam) & _).
  rewrite Hl in Hlam. apply lambda_args_none in Hlam. destruct Hlam as [Heq Hlt].
  injection Heq as Hf Hu Hn.
  split; [exact Hf|]. split; [rewrite Hf; exact Hlt|].
  split; [exact Hu|]. split; [exact Hn|]. split.
  - intros s2 r s3 Hr. apply elnet_pre_passes in Hr. tauto.
  - intros s2 r s3 Hr. apply fishnet_pre_passes in Hr. tauto.
Qed.

Lemma lambda_min_ratio_default_witness :
  fc_flmin (ok_value fc_dummy stage2_poisson) = Num (1 # 10000) /\
  last (core_lambda_grid 10 2 (1 / 2) [] 3) 0%R = 1%R.
Proof.
  split.
  - destruct (proj1 lambda_min_ratio_default input_poisson "poisson"%string
                (ok_value stage1_dummy stage1_poisson) (final_state stage1_poisson)
                (ok_value fc_dummy stage2_poisson) (final_state stage2_poisson))
      as (Hf & _).
    + reflexivity.
    + vm_compute. reflexivity.
    + rewrite Hf. vm_compute. reflexivity.
  - destruct (proj2 lambda_min_ratio_default 10%R 2%R (1 / 2)%R [] 3
                ltac:(lra) ltac:(lia) ltac:(lra) ltac:(lra)) as [Hl _].
    rewrite Hl. field.
Defined.

(** C2 fails at [nobs = nvars]: on a 4 x 4 design with no [lambda] and no
    [lambda.min.ratio], the family fit receives [flmin = 1e-4], not 1e-2. *)
Lemma lambda_min_ratio_square_counterexample :
  x_nrow (in_x input_square) = x_ncol (in_x input_square) /\
  map fc_flmin (family_calls (glmnet ext_example input_square cfg_example)) = [Num (1 # 10000)].
Proof. split; vm_compute; reflexivity. Qed.

(** C3.  A user sequence with a negative (or missing) value is refused; else
    [glmnet] hands the solver [flmin = 1], [nlam = length(lambda)] and
    [ulam = rev(sort(lambda))]: the same values in non-increasing order,
    ties kept.  With [flmin >= 1] the solver's grid is [ulam] itself. *)
Theorem user_lambda_sorted_verbatim :
  (forall inp fam s1 s fc s' l,
     in_lambda inp = Some l -> glmnet_stage2 inp fam s1 s = ROk fc s' ->
     (forall d, In d l -> dbl_lt d (Num 0%Q) = LFalse) /\
     fc_ulam fc = rev (r_sort l) /\
     Sorted (fun a b => dbl_leb b a = true) (fc_ulam fc) /\
     Permutation (fc_ulam fc) l /\
     fc_flmin fc = Num 1%Q /\ fc_nlam fc = Z.of_nat (List.length l) /\
     (forall s2 r s3, elnet_pre fc s2 = ROk r s3 ->
        ca_ulam (fst (fst r)) = fc_ulam fc /\ ca_flmin (fst (fst r)) = Num 1%Q) /\
     (forall s2 r s3, fishnet_pre fc s2 = ROk r s3 ->
        ca_ulam (fst r) = fc_ulam fc /\ ca_flmin (fst r) = Num 1%Q)) /\
  (forall big lmax ulam, core_lambda_grid big lmax (dbl_R (Num 1%Q)) ulam (List.length ulam) = ulam).
Proof.
  split.
  2:{ intros big lmax ulam. unfold dbl_R.
      replace (Q2R 1%Q) with 1%R by (unfold Q2R; simpl; field). apply core_grid_user. }
  intros inp fam s1 s fc s' l Hl H.
  destruct (stage2_blocks _ _ _ _ _ _ H) as (_ & _ & (sc & sc' & Hlam) & _).
  rewrite Hl in Hlam. apply lambda_args_some in Hlam. destruct Hlam as [Heq Hpos].
  injection Heq as Hf Hu Hn.
  assert (Hid := filter_not_na_id l Hpos).
  split; [exact Hpos|]. split; [exact Hu|].
  split.
  { rewrite Hu. apply Sorted_rev. apply isort_sorted. }
  split.
  { rewrite Hu. unfold r_sort. rewrite Hid.
    eapply perm_trans; [apply Permutation_sym, Permutation_rev | apply isort_perm]. }
  split; [exact Hf|]. split; [exact Hn|].
  split.
  - intros s2 r s3 Hr. apply elnet_pre_passes in Hr. rewrite <- Hf. tauto.
  - intros s2 r s3 Hr. apply fishnet_pre_passes in Hr. rewrite <- Hf. tauto.
Qed.

Lemma user_lambda_sorted_verbatim_witness :
  fc_ulam (ok_value fc_dummy stage2_lambda_tie) = [zd 1; zd 1].
Proof.
  destruct (proj1 user_lambda_sorted_verbatim input_lambda_tie "poisson"%string
              (ok_value stage1_dummy stage1_lambda_tie) (final_state stage1_lambda_tie)
              (ok_value fc_dummy stage2_lambda_tie) (final_state stage2_lambda_tie)
              [zd 1; zd 1])
    as (_ & Hu & _).
  - reflexivity.
  - vm_compute. reflexivity.
  - rewrite Hu. vm_compute. reflexivity.
Defined.

(** C3 fails on ties: [lambda = c(1, 1)] reaches the family fit as
    [ulam = c(1, 1)], which is not strictly decreasing. *)
Lemma user_lambda_tie_counterexample :
  map fc_ulam (family_calls (glmnet ext_example input_lambda_tie cfg_example)) = [[zd 1; zd 1]].
Proof. vm_compute. reflexivity. Qed.

(** ** The Gaussian mode *)

Lemma match_arg_in a cs t : match_arg a cs = Some t -> In t cs.
Proof.
  unfold match_arg. destruct (existsb (String.eqb a) cs) eqn:E.
  - intros H. injection H as <-. apply existsb_exists in E.
    destruct E as (c & Hc & Heq). apply String.eqb_eq in Heq. subst. exact Hc.
  - destruct (String.eqb a EmptyString); [discriminate|].
    destruct (filter _ cs) as [|c [|]] eqn:F; try discriminate.
    intros H. injection H as <-.
    assert (Hin : In c (filter (fun c => String.prefix a c) cs)) by (rewrite F; left; auto).
    apply filter_In in Hin. tauto.
Qed.

Lemma elnet_pre_ka fc s r s' :
  elnet_pre fc s = ROk r s' ->
  exists t, match_arg (fc_type_gaussian fc) ["covariance"; "naive"]%string = Some t /\
    ca_kind (fst (fst r)) = KElnet (if String.eqb t "covariance" then 1%Z else 2%Z).
Proof.
  intros H. unfold elnet_pre in H.
  destruct (match_arg (fc_type_gaussian fc) _) as [t|] eqn:E.
  2:{ apply bind_ok_inv in H. destruct H as (? & ? & Hm & _). discriminate Hm. }
  exists t. split; [reflexivity|].
  apply match_arg_in in E.
  destruct E as [<- | [<- | []]];
    apply bind_ok_inv in H; destruct H as (ka & s1 & Hm & H); cbv in Hm;
    injection Hm as <- <-; peel H; reflexivity.
Qed.

(** C4.  The Gaussian mode [elnet] hands the solver is [ka = 1]
    (covariance) when the [type.gaussian] in force matches "covariance" and
    [ka = 2] (naive) when it matches "naive"; a user value decides, and the
    default is "covariance" exactly when [nvars < 500], whether [x] is dense
    or sparse. *)
Theorem gaussian_mode_ka :
  forall inp fam s1 s fc s' s2 r s3,
    glmnet_stage2 inp fam s1 s = ROk fc s' -> elnet_pre fc s2 = ROk r s3 ->
    (exists t, match_arg (match in_type_gaussian inp with
                          | Some t0 => t0
                          | None => if s1_nvars s1 <? 500 then "covariance"%string else "naive"%string
                          end) ["covariance"; "naive"]%string = Some t /\
               ca_kind (fst (fst r)) = KElnet (if String.eqb t "covariance" then 1%Z else 2%Z)) /\
    (in_type_gaussian inp = None ->
       ca_kind (fst (fst r)) = KElnet (if s1_nvars s1 <? 500 then 1%Z else 2%Z)).
Proof.
  intros inp fam s1 s fc s' s2 r s3 H Hr.
  destruct (stage2_blocks _ _ _ _ _ _ H) as (_ & _ & _ & _ & _ & _ & Htg & _).
  destruct (elnet_pre_ka _ _ _ _ Hr) as (t & Ht & Hk).
  rewrite Htg in Ht. unfold default_type_gaussian in Ht.
  split; [exists t; split; assumption|].
  intros Hn. rewrite Hn in Ht. rewrite Hk.
  destruct (s1_nvars s1 <? 500); vm_compute in Ht; injection Ht as <-; reflexivity.
Qed.

Lemma gaussian_mode_ka_witness :
  ca_kind (fst (fst (ok_value (ca_dummy, NA, false) elnet_pre_sparse_gaussian))) = KElnet 1%Z.
Proof.
  destruct (gaussian_mode_ka input_sparse_gaussian "gaussian"%string
              (ok_value stage1_dummy stage1_sparse_gaussian) (final_state stage1_sparse_gaussian)
              (ok_value fc_dummy stage2_sparse_gaussian) (final_state stage2_sparse_gaussian)
              st0 (ok_value (ca_dummy, NA, false) elnet_pre_sparse_gaussian)
              (final_state elnet_pre_sparse_gaussian))
    as [_ Hd].
  - vm_compute. reflexivity.
  - vm_compute. reflexivity.
  - rewrite (Hd eq_refl). vm_compute. reflexivity.
Defined.

(** C4 fails on sparse designs: a Gaussian fit on a sparse [x] with two
    columns and the default [type.gaussian] runs the solver in covariance
    mode ([ka = 1]), not in naive mode. *)
Lemma sparse_gaussian_covariance_counterexample :
  x_sparse (in_x input_sparse_gaussian) = true /\
  map (fun p => ca_kind (fst p)) (core_calls (glmnet ext_example input_sparse_gaussian cfg_example))
    = [KElnet 1%Z].
Proof. split; vm_compute; reflexivity. Qed.

(** ** Reporting the lambdas *)

Lemma finish_fit_lambda co nulldev is_offset s f s' :
  finish_fit co nulldev is_offset s = ROk f s' ->
  fl_lambda f = firstn (co_lmu co) (co_alm co).
Proof. intros H. unfold finish_fit in H. peel H; reflexivity. Qed.

(** ** Steps that make no call *)

Lemma no_emit_ret {A : Type} (a : A) : no_emit (ret a).
Proof. intros s. reflexivity. Qed.

Lemma no_emit_stop {A : Type} msg : no_emit (@stop A msg).
Proof. intros s. reflexivity. Qed.

Lemma no_emit_bind {A B : Type} (m : M A) (k : A -> M B) :
  no_emit m -> (forall a, no_emit (k a)) -> no_emit (bind m k).
Proof.
  intros Hm Hk s. unfold bind. specialize (Hm s).
  destruct (m s) as [a s1 | e s1]; simpl in *; [rewrite Hk |]; exact Hm.
Qed.

Lemma no_emit_r_if c : no_emit (r_if c).
Proof. intros s. destruct c; reflexivity. Qed.

Lemma no_emit_warning msg : no_emit (warning msg).
Proof. intros s. reflexivity. Qed.

Lemma no_emit_get_cfg : no_emit get_cfg.
Proof. intros s. reflexivity. Qed.

Lemma no_emit_modify_cfg f : no_emit (modify_cfg f).
Proof. intros s. reflexivity. Qed.

Lemma no_emit_on_exit h : no_emit (on_exit h).
Proof. intros s. reflexivity. Qed.

Ltac solve_no_emit :=
  repeat match goal with
  | |- no_emit (bind _ _) => apply no_emit_bind; [| intros ?]
  | |- no_emit (ret _) => apply no_emit_ret
  | |- no_emit (stop _) => apply no_emit_stop
  | |- no_emit (r_if _) => apply no_emit_r_if
  | |- no_emit (warning _) => apply no_emit_warning
  | |- no_emit get_cfg => apply no_emit_get_cfg
  | |- no_emit (modify_cfg _) => apply no_emit_modify_cfg
  | |- no_emit (on_exit _) => apply no_emit_on_exit
  | |- no_emit (let _ := _ in _) => cbv zeta
  | |- no_emit (if ?b then _ else _) => destruct b
  | |- no_emit (match ?x with _ => _ end) => destruct x
  end.

Lemma no_emit_stage1 inp : no_emit (glmnet_stage1 inp).
Proof. unfold glmnet_stage1, shape_response. solve_no_emit. Qed.

Lemma no_emit_stage2 inp fam s1 : no_emit (glmnet_stage2 inp fam s1).
Proof.
  unfold glmnet_stage2, clamp_alpha, box_limits, fit_length, zero_bound_fdev, lambda_args.
  solve_no_emit.
Qed.










(** ** The Gaussian null deviance *)


Lemma combine_map_num (ys ws : list Q) :
  combine (map Num ys) (map Num ws) = map (fun p => (Num (fst p), Num (snd p))) (combine ys ws).
Proof.
  revert ws. induction ys as [|y ys IH]; intros [|w ws]; simpl; auto. rewrite IH. reflexivity.
Qed.

Lemma map_seq_combine {A B C : Type} (g : A -> B -> C) l1 l2 d1 d2 :
  List.length l1 = List.length l2 ->
  map (fun i => g (nth i l1 d1) (nth i l2 d2)) (seq 0 (List.length l1))
  = map (fun p => g (fst p) (snd p)) (combine l1 l2).
Proof.
  revert l2. induction l1 as [|a l1 IH]; intros [|b l2] Hl; simpl in *; try discriminate; auto.
  f_equal. rewrite <- seq_shift, map_map. simpl. apply IH. lia.
Qed.

Lemma recycle_same_length {A B C : Type} (f : A -> B -> C) a b da db :
  List.length a = List.length b ->
  recycle f a b da db = map (fun p => f (fst p) (snd p)) (combine a b).
Proof.
  intros Hl. unfold recycle.
  destruct a as [|x a]; [reflexivity|]. destruct b as [|y b]; [discriminate|].
  cbv beta match zeta.
  rewrite <- Hl, Nat.max_id, <- (map_seq_combine f _ _ da db Hl).
  apply map_ext_in. intros i Hi. apply in_seq in Hi.
  rewrite Nat.mod_small by lia. reflexivity.
Qed.

























(** ** The end of a fit *)

Lemma map_nth_seq0 (l : list dbl) n d :
  n <= List.length l -> map (fun i => nth i l d) (seq 0 n) = firstn n l.
Proof.
  revert n. induction l as [|a l IH]; intros [|n] Hn; simpl in *; try lia; auto.
  f_equal. rewrite <- seq_shift, map_map. simpl. apply IH. lia.
Qed.

Lemma r_index_seq_firstn (l : list dbl) n :
  1 <= n -> n <= List.length l -> r_index l (r_seq n) = firstn n l.
Proof.
  intros H1 Hn. destruct n as [|n]; [lia|]. unfold r_index, r_seq.
  rewrite forallb_filter_id.
  2:{ apply forallb_forall. intros i Hi. apply in_seq in Hi.
      apply negb_true_iff, Nat.eqb_neq. lia. }
  rewrite <- seq_shift, map_map.
  rewrite (map_ext (fun x => nth (S x - 1) l NA) (fun x => nth x l NA))
    by (intros; f_equal; lia).
  apply map_nth_seq0. exact Hn.
Qed.

(** C1 as far as it holds.  A fatal [jerr] makes [elnet] and [fishnet]
    stop with no fit; otherwise a nonzero [jerr] adds a warning, and the
    intercepts, degrees of freedom, lambdas and coefficient columns are cut
    to the first [lmu] entries, as is [dev.ratio] when [lmu >= 1]. *)
Theorem jerr_truncates_path :
  (forall co nulldev is_offset s, jerr_fatal (co_jerr co) = true ->
     finish_fit co nulldev is_offset s = RErr (jerr_msg (co_jerr co)) s) /\
  (forall co nulldev is_offset s f s', finish_fit co nulldev is_offset s = ROk f s' ->
     jerr_fatal (co_jerr co) = false /\
     st_warns s' = st_warns s ++ (if (co_jerr co =? 0)%Z then [] else [jerr_msg (co_jerr co)]) /\
     fl_a0 f = firstn (co_lmu co) (co_a0 co) /\ fl_df f = firstn (co_lmu co) (co_nin co) /\
     fl_lambda f = firstn (co_lmu co) (co_alm co) /\ List.length (fl_beta f) = co_lmu co /\
     (1 <= co_lmu co <= List.length (co_rsq co) ->
        fl_dev_ratio f = firstn (co_lmu co) (co_rsq co))).
Proof.
  split.
  - intros co nulldev is_offset s Hf. unfold finish_fit, bind.
    rewrite Hf. destruct (co_jerr co =? 0)%Z eqn:E.
    + apply Z.eqb_eq in E. rewrite E in Hf. discriminate.
    + reflexivity.
  - intros co nulldev is_offset s f s' H. unfold finish_fit in H. peel H.
    destruct (co_jerr co =? 0)%Z eqn:E; simpl negb in Hm.
    + unfold ret in Hm. injection Hm; intros; subst.
      apply Z.eqb_eq in E. rewrite E. simpl.
      repeat split; auto.
      * rewrite app_nil_r. reflexivity.
      * unfold getcoef_beta. rewrite length_map, length_seq. reflexivity.
      * intros Hl. apply r_index_seq_firstn; lia.
    + destruct (jerr_fatal (co_jerr co)) eqn:F; [unfold stop in Hm; discriminate|].
      unfold warning in Hm. injection Hm; intros; subst. simpl.
      repeat split; auto.
      * unfold getcoef_beta. rewrite length_map, length_seq. reflexivity.
      * intros Hl. apply r_index_seq_firstn; lia.
Qed.

Lemma jerr_truncates_path_witness :
  finish_fit core_out_fatal NA false st0 = RErr (jerr_msg 1%Z) st0 /\
  st_warns (final_state (finish_fit core_out_cut NA false st0)) = [jerr_msg (-10002)%Z] /\
  fl_lambda (ok_value fit_dummy (finish_fit core_out_cut NA false st0)) = [Num 1%Q] /\
  fl_a0 (ok_value fit_dummy (finish_fit core_out_cut NA false st0)) = [Num 0%Q] /\
  fl_dev_ratio (ok_value fit_dummy (finish_fit core_out_cut NA false st0)) = [Num 0%Q].
Proof.
  split.
  { exact (proj1 jerr_truncates_path core_out_fatal NA false st0 eq_refl). }
  destruct (proj2 jerr_truncates_path core_out_cut NA false st0
              (ok_value fit_dummy (finish_fit core_out_cut NA false st0))
              (final_state (finish_fit core_out_cut NA false st0))
              ltac:(vm_compute; reflexivity))
    as (_ & Hw & Ha & _ & Hl & _ & Hd).
  rewrite Hw, Ha, Hl, (Hd ltac:(vm_compute; lia)). vm_compute. auto.
Defined.

(** C1 fails at [lmu = 0]: when the solver stops at the first lambda with a
    non-fatal code, [seq(fit$lmu)] is [c(1, 0)], so [dev.ratio] keeps one
    value while the lambdas and intercepts are empty. *)
Lemma lmu0_dev_ratio_counterexample :
  exists f s, run_lmu0 = ROk f s /\
    fl_lambda f = [] /\ fl_a0 f = [] /\ fl_dev_ratio f = [Num 0%Q] /\
    In (jerr_msg (-10001)%Z) (st_warns s).
Proof.
  exists (ok_value fit_dummy run_lmu0), (final_state run_lmu0).
  split; [vm_compute; reflexivity|].
  split; [vm_compute; reflexivity|]. split; [vm_compute; reflexivity|].
  split; [vm_compute; reflexivity|].
  vm_compute. auto 20.
Qed.

Lemma no_emit_elnet_pre fc : no_emit (elnet_pre fc).
Proof. unfold elnet_pre, y_minus, null_deviance, weighted_mean. solve_no_emit. Qed.

Lemma no_emit_fishnet_pre fc : no_emit (fishnet_pre fc).
Proof. unfold fishnet_pre. solve_no_emit. Qed.

Lemma no_emit_finish_fit co nd io : no_emit (finish_fit co nd io).
Proof. unfold finish_fit. solve_no_emit. Qed.

Lemma exit_frame_log s : st_log (exit_frame s) = st_log s.
Proof. unfold exit_frame. destruct (st_onexit s); reflexivity. Qed.

Lemma stage2_family inp fam s1 s fc s' :
  glmnet_stage2 inp fam s1 s = ROk fc s' -> fc_family fc = fam.
Proof. intros H. unfold glmnet_stage2 in H. peel H. reflexivity. Qed.

Lemma dbl_lt_one_R d : dbl_lt d (Num 1%Q) = LTrue -> (dbl_R d < 1)%R.
Proof.
  assert (E1 : Q2R 1 = 1%R) by (unfold Q2R; simpl; field).
  destruct d as [q| | | |]; simpl; intros H; try discriminate; try lra.
  apply lgl_of_bool_true, Qltb_true, Qlt_Rlt in H. lra.
Qed.

Lemma r_sort_length l : List.length (r_sort l) <= List.length l.
Proof.
  unfold r_sort. rewrite (Permutation_length (isort_perm _)). apply filter_length_le.
Qed.

(** A run of [glmnet] on a named family other than Cox, without relax:
    the two stages, the family fit, [post_fit] and the exit of the frame. *)
Lemma glmnet_named_run E inp c0 f s fam :
  glmnet E inp c0 = ROk f s -> in_relax inp = false -> in_family inp <> FamObject ->
  match_arg (match in_family inp with FamName n => n | _ => "gaussian"%string end)
    family_names = Some fam ->
  String.eqb fam "cox" = false ->
  exists s1 sa fc sb fit sc,
    glmnet_stage1 inp (mkst c0 None [] []) = ROk s1 sa /\
    glmnet_stage2 inp fam s1 sa = ROk fc sb /\
    dispatch E fc sb = ROk fit sc /\ f = post_fit E inp fc fit /\ s = exit_frame sc.
Proof.
  intros H Hr Hf Hm Hc. unfold glmnet in H.
  destruct (glmnet_body E inp (mkst c0 None [] [])) as [f0 s0 | e s0] eqn:Hb; [|discriminate].
  injection H as <- <-.
  unfold glmnet_body in Hb. apply bind_ok_inv in Hb. destruct Hb as (pr & s2 & Hp & Hb).
  unfold glmnet_prep in Hp. apply bind_ok_inv in Hp. destruct Hp as (s1 & sa & H1 & Hp).
  assert (Hp' : (fc <- glmnet_stage2 inp fam s1 ;; ret (PCall fc)) sa = ROk pr s2).
  { destruct (in_family inp) as [|n|]; [| |congruence]; cbv beta iota in Hp;
      rewrite Hm, Hc in Hp; exact Hp. }
  apply bind_ok_inv in Hp'. destruct Hp' as (fc & sb & H2 & Hp'). unfold ret in Hp'.
  injection Hp' as <- <-.
  apply bind_ok_inv in Hb. destruct Hb as (fit0 & sc & Hd & Hb). cbv beta iota in Hd.
  rewrite Hr in Hb. unfold ret in Hb. injection Hb as <- <-.
  apply bind_ok_inv in Hd. destruct Hd as (fit & sd & Hd & Hret). unfold ret in Hret.
  injection Hret as <- <-.
  do 6 eexists. repeat split; eauto.
Qed.

(** The Gaussian and Poisson fits call the solver once, after the family
    fit is logged, with the lambda arguments of the call, and report the
    first [lmu] values of its [alm]. *)
Lemma dispatch_core_run E fc s f s' :
  dispatch E fc s = ROk f s' ->
  (fc_family fc = "gaussian"%string \/ fc_family fc = "poisson"%string) ->
  exists ca c,
    st_log s' = st_log s ++ [EvFamily fc (st_cfg s); EvCore ca c] /\
    ca_flmin ca = fc_flmin fc /\ ca_ulam ca = fc_ulam fc /\ ca_nlam ca = fc_nlam fc /\
    fl_lambda f = firstn (co_lmu (ext_core E ca c)) (co_alm (ext_core E ca c)).
Proof.
  intros H Hfam. unfold dispatch in H.
  apply bind_ok_inv in H. destruct H as (c0 & s0 & Hc & H). unfold get_cfg in Hc.
  injection Hc as <- <-.
  apply bind_ok_inv in H. destruct H as (u & s1 & He & H). unfold emit in He.
  injection He as _ <-.
  destruct Hfam as [Hg | Hp].
  - replace (String.eqb (fc_family fc) "gaussian") with true in H by (rewrite Hg; reflexivity).
    unfold elnet in H. apply bind_ok_inv in H. destruct H as ([[ca nd] io] & s2 & Hpre & H).
    cbv beta iota in H. apply bind_ok_inv in H. destruct H as (co & s3 & Hcc & H).
    cbv [call_core bind get_cfg emit ret] in Hcc. injection Hcc as <- <-.
    pose proof (no_emit_elnet_pre fc (mkst (st_cfg s) (st_onexit s) (st_warns s)
                  (st_log s ++ [EvFamily fc (st_cfg s)]))) as L1.
    rewrite Hpre in L1. simpl in L1.
    pose proof (no_emit_finish_fit (ext_core E ca (st_cfg s2)) nd io
                  (mkst (st_cfg s2) (st_onexit s2) (st_warns s2) (st_log s2 ++ [EvCore ca (st_cfg s2)])))
      as L2.
    rewrite H in L2. simpl in L2.
    apply elnet_pre_passes in Hpre. simpl in Hpre.
    exists ca, (st_cfg s2). split; [rewrite L2, L1, <- app_assoc; reflexivity|].
    split; [tauto|]. split; [tauto|]. split; [tauto|].
    exact (finish_fit_lambda _ _ _ _ _ _ H).
  - replace (String.eqb (fc_family fc) "gaussian") with false in H by (rewrite Hp; reflexivity).
    replace (String.eqb (fc_family fc) "poisson") with true in H by (rewrite Hp; reflexivity).
    unfold fishnet in H. apply bind_ok_inv in H. destruct H as ([ca io] & s2 & Hpre & H).
    cbv beta iota in H. apply bind_ok_inv in H. destruct H as (co & s3 & Hcc & H).
    cbv [call_core bind get_cfg emit ret] in Hcc. injection Hcc as <- <-.
    pose proof (no_emit_fishnet_pre fc (mkst (st_cfg s) (st_onexit s) (st_warns s)
                  (st_log s ++ [EvFamily fc (st_cfg s)]))) as L1.
    rewrite Hpre in L1. simpl in L1.
    pose proof (no_emit_finish_fit (ext_core E ca (st_cfg s2))
                  (co_nulldev (ext_core E ca (st_cfg s2))) io
                  (mkst (st_cfg s2) (st_onexit s2) (st_warns s2) (st_log s2 ++ [EvCore ca (st_cfg s2)])))
      as L2.
    rewrite H in L2. simpl in L2.
    apply fishnet_pre_passes in Hpre. simpl in Hpre.
    exists ca, (st_cfg s2). split; [rewrite L2, L1, <- app_assoc; reflexivity|].
    split; [tauto|]. split; [tauto|]. split; [tauto|].
    exact (finish_fit_lambda _ _ _ _ _ _ H).
Qed.

Lemma solver_grid_ext_grid : solver_grid ext_grid (fun _ _ => 0%R).
Proof.
  assert (E1 : Q2R 1 = 1%R) by (unfold Q2R; simpl; field).
  assert (E0 : Q2R 0 = 0%R) by (unfold Q2R; simpl; field).
  assert (Hst : forall (g : nat -> R) c n,
             map dbl_R (map (fun k => if k =? 0 then big c else Num 0%Q) (seq 0 n))
             = map (fun k => if k =? 0 then dbl_R (big c)
                             else (0 * g k)%R) (seq 0 n)).
  { intros g c n. rewrite map_map. apply map_ext. intros k.
    destruct (k =? 0); [reflexivity|]. simpl. rewrite E0. ring. }
  intros ca c. simpl. unfold grid_alm, core_lambda_grid.
  destruct (ca_flmin ca) as [q| | | |]; simpl dbl_R.
  - destruct (Qle_bool 1 q) eqn:Eq.
    + apply Qle_bool_iff, Qle_Rle in Eq.
      destruct (Rlt_dec (Q2R q) 1) as [Hl | _]; [lra|]. symmetry. apply firstn_map.
    + destruct (Rlt_dec (Q2R q) 1) as [_ | Hn].
      * apply (Hst (fun k => Rpower (Q2R q) (INR k / INR (Z.to_nat (ca_nlam ca) - 1)))).
      * exfalso. apply Hn. assert (Hq : (q < 1)%Q).
        { apply Qnot_le_lt. intros Hle. apply Qle_bool_iff in Hle. congruence. }
        apply Qlt_Rlt in Hq. lra.
  - destruct (Rlt_dec 0 1) as [_ | Hn];
      [apply (Hst (fun k => Rpower 0 (INR k / INR (Z.to_nat (ca_nlam ca) - 1)))) | lra].
  - destruct (Rlt_dec 0 1) as [_ | Hn];
      [apply (Hst (fun k => Rpower 0 (INR k / INR (Z.to_nat (ca_nlam ca) - 1)))) | lra].
  - destruct (Rlt_dec 0 1) as [_ | Hn];
      [apply (Hst (fun k => Rpower 0 (INR k / INR (Z.to_nat (ca_nlam ca) - 1)))) | lra].
  - destruct (Rlt_dec 0 1) as [_ | Hn];
      [apply (Hst (fun k => Rpower 0 (INR k / INR (Z.to_nat (ca_nlam ca) - 1)))) | lra].
Qed.

(** C6 corrected.  For a solver whose lambdas follow [core_lambda_grid], a
    Gaussian or Poisson run of [glmnet] calls it once.  When [lambda] was
    missing, [glmnet] asked for a computed grid ([flmin < 1]); the solver's
    first lambda is then the stand-in for infinity, not lambda_max, and
    [glmnet] reports [fix.lam] of the first [lmu] solver lambdas.  When
    [lambda] was supplied, the solver's lambdas are the supplied values in
    decreasing order and [glmnet] reports the first [lmu] of them as they
    are. *)
Theorem lambda_max_first_fix_lam_internal :
  forall E lmax inp c0 f s fam,
    solver_grid E lmax ->
    glmnet E inp c0 = ROk f s -> in_relax inp = false -> in_family inp <> FamObject ->
    match_arg (match in_family inp with FamName n => n | _ => "gaussian"%string end)
      family_names = Some fam ->
    (fam = "gaussian"%string \/ fam = "poisson"%string) ->
    exists ca c,
      core_calls (glmnet E inp c0) = [(ca, c)] /\
      (in_lambda inp = None ->
         fl_lambda f = ext_fix_lam E (firstn (co_lmu (ext_core E ca c)) (co_alm (ext_core E ca c))) /\
         (co_alm (ext_core E ca c) <> [] ->
            hd 0%R (map dbl_R (co_alm (ext_core E ca c))) = dbl_R (big c))) /\
      (forall l, in_lambda inp = Some l ->
         fl_lambda f = firstn (co_lmu (ext_core E ca c)) (co_alm (ext_core E ca c)) /\
         map dbl_R (co_alm (ext_core E ca c)) = map dbl_R (rev (r_sort l))).
Proof.
  intros E lmax inp c0 f s fam Hg H Hr Hf Hm Hfam.
  assert (Hc : String.eqb fam "cox" = false) by (destruct Hfam as [-> | ->]; reflexivity).
  destruct (glmnet_named_run E inp c0 f s fam H Hr Hf Hm Hc)
    as (s1 & sa & fc & sb & fit & sc & H1 & H2 & Hd & Hfit & Hs).
  assert (Hff : fc_family fc = fam) by exact (stage2_family _ _ _ _ _ _ H2).
  destruct (dispatch_core_run E fc sb fit sc Hd ltac:(rewrite Hff; exact Hfam))
    as (ca & c & Hlog & Hfl & Hul & Hnl & Hlam).
  destruct (stage2_blocks _ _ _ _ _ _ H2) as (_ & _ & (sc' & sc'' & Hargs) & _).
  exists ca, c. split; [|split].
  - rewrite H. unfold core_calls. simpl. rewrite Hs, exit_frame_log, Hlog.
    pose proof (no_emit_stage1 inp (mkst c0 None [] [])) as L1. rewrite H1 in L1.
    pose proof (no_emit_stage2 inp fam s1 sa) as L2. rewrite H2 in L2.
    simpl in L1, L2. rewrite L2, L1. reflexivity.
  - intros Hn. rewrite Hn in Hargs. apply lambda_args_none in Hargs.
    destruct Hargs as [Heq Hlt]. injection Heq as Hflm Hu Hnn.
    split.
    + rewrite Hfit. unfold post_fit. rewrite Hn. simpl. rewrite Hlam. reflexivity.
    + intros Hne. rewrite (Hg ca c).
      assert (Hlt' : (dbl_R (ca_flmin ca) < 1)%R).
      { apply dbl_lt_one_R. rewrite Hfl, Hflm. exact Hlt. }
      destruct (Z.to_nat (ca_nlam ca)) as [|n] eqn:En.
      * exfalso. apply Hne. apply (map_eq_nil dbl_R). rewrite (Hg ca c), En.
        unfold core_lambda_grid. destruct (Rlt_dec _ 1); reflexivity.
      * apply head_core_grid; [exact Hlt' | lia].
  - intros l Hl. rewrite Hl in Hargs. apply lambda_args_some in Hargs.
    destruct Hargs as [Heq _]. injection Heq as Hflm Hu Hnn.
    split.
    + rewrite Hfit. unfold post_fit. rewrite Hl. simpl. exact Hlam.
    + rewrite (Hg ca c), Hfl, Hul, Hnl, Hflm, Hu, Hnn, Nat2Z.id.
      unfold core_lambda_grid, dbl_R.
      destruct (Rlt_dec (Q2R 1) 1) as [Hlt | _].
      * exfalso. unfold Q2R in Hlt. simpl in Hlt. lra.
      * apply firstn_all2. rewrite length_map, length_rev. apply r_sort_length.
Qed.

Lemma lambda_max_first_fix_lam_internal_witness :
  (exists ca c,
     core_calls (glmnet ext_grid input_poisson cfg_example) = [(ca, c)] /\
     (in_lambda input_poisson = None ->
        fl_lambda (ok_value fit_dummy (glmnet ext_grid input_poisson cfg_example))
        = ext_fix_lam ext_grid (firstn (co_lmu (ext_core ext_grid ca c)) (co_alm (ext_core ext_grid ca c))) /\
        (co_alm (ext_core ext_grid ca c) <> [] ->
           hd 0%R (map dbl_R (co_alm (ext_core ext_grid ca c))) = dbl_R (big c))) /\
     (forall l, in_lambda input_poisson = Some l ->
        fl_lambda (ok_value fit_dummy (glmnet ext_grid input_poisson cfg_example))
        = firstn (co_lmu (ext_core ext_grid ca c)) (co_alm (ext_core ext_grid ca c)) /\
        map dbl_R (co_alm (ext_core ext_grid ca c)) = map dbl_R (rev (r_sort l)))) /\
  (exists ca c,
     core_calls (glmnet ext_grid input_lambda_tie cfg_example) = [(ca, c)] /\
     (in_lambda input_lambda_tie = None ->
        fl_lambda (ok_value fit_dummy (glmnet ext_grid input_lambda_tie cfg_example))
        = ext_fix_lam ext_grid (firstn (co_lmu (ext_core ext_grid ca c)) (co_alm (ext_core ext_grid ca c))) /\
        (co_alm (ext_core ext_grid ca c) <> [] ->
           hd 0%R (map dbl_R (co_alm (ext_core ext_grid ca c))) = dbl_R (big c))) /\
     (forall l, in_lambda input_lambda_tie = Some l ->
        fl_lambda (ok_value fit_dummy (glmnet ext_grid input_lambda_tie cfg_example))
        = firstn (co_lmu (ext_core ext_grid ca c)) (co_alm (ext_core ext_grid ca c)) /\
        map dbl_R (co_alm (ext_core ext_grid ca c)) = map dbl_R (rev (r_sort l)))).
Proof.
  split.
  - apply (lambda_max_first_fix_lam_internal ext_grid (fun _ _ => 0%R) input_poisson cfg_example
             (ok_value fit_dummy (glmnet ext_grid input_poisson cfg_example))
             (final_state (glmnet ext_grid input_poisson cfg_example)) "poisson"%string).
    + exact solver_grid_ext_grid.
    + vm_compute. reflexivity.
    + reflexivity.
    + discriminate.
    + vm_compute. reflexivity.
    + right. reflexivity.
  - apply (lambda_max_first_fix_lam_internal ext_grid (fun _ _ => 0%R) input_lambda_tie cfg_example
             (ok_value fit_dummy (glmnet ext_grid input_lambda_tie cfg_example))
             (final_state (glmnet ext_grid input_lambda_tie cfg_example)) "poisson"%string).
    + exact solver_grid_ext_grid.
    + vm_compute. reflexivity.
    + reflexivity.
    + discriminate.
    + vm_compute. reflexivity.
    + right. reflexivity.
Defined.

(** C6 fails at its first sentence: over a solver that follows the grid
    (here with lambda_max = 0), the Poisson call without [lambda] gets from
    the solver the stand-in [big] = 9.9e35 as its first lambda, not
    lambda_max. *)
Lemma first_lambda_stand_in_counterexample :
  solver_grid ext_grid (fun _ _ => 0%R) /\
  map (fun p => hd NA (co_alm (ext_core ext_grid (fst p) (snd p))))
      (core_calls (glmnet ext_grid input_poisson cfg_example)) = [big cfg_example] /\
  big cfg_example <> Num 0%Q.
Proof.
  split; [exact solver_grid_ext_grid|]. split; [vm_compute; reflexivity | discriminate].
Qed.

(** ** Settings changed for the length of a fit *)

(** C5 as far as it holds.  With a zero bound and [fdev != 0], lines 456-464
    set [fdev] to 0 and make the frame's exit expression put the entry value
    back, so leaving the frame right then restores the entry settings. *)
Theorem zero_bound_fdev_restore :
  forall cl s u s',
    zero_bound_fdev cl s = ROk u s' ->
    r_any (map (fun d => dbl_eq d (Num 0%Q)) (fst cl ++ snd cl)) = LTrue ->
    Qeq_bool (fdev (st_cfg s)) 0%Q = false ->
    st_cfg s' = control_set_fdev 0%Q (st_cfg s) /\
    st_onexit s' = Some (control_set_fdev (fdev (st_cfg s))) /\
    st_cfg (exit_frame s') = st_cfg s.
Proof.
  intros cl s u s' H Hz Hf. unfold zero_bound_fdev in H.
  rewrite Hz in H. unfold bind, r_if, ret, get_cfg in H. cbv beta iota in H.
  rewrite Hf in H. unfold modify_cfg, on_exit in H. simpl in H.
  injection H; intros; subst. simpl.
  split; [reflexivity|]. split; [reflexivity|].
  unfold exit_frame. simpl. destruct (st_cfg s). reflexivity.
Qed.

Lemma zero_bound_fdev_restore_witness :
  st_cfg (exit_frame (final_state zero_bound_example)) = cfg_example.
Proof.
  destruct (zero_bound_fdev_restore ([Num 0%Q; NegInf], [PosInf; PosInf]) st0 tt
              (final_state zero_bound_example)
              ltac:(vm_compute; reflexivity) ltac:(vm_compute; reflexivity)
              ltac:(vm_compute; reflexivity))
    as (_ & _ & H).
  exact H.
Defined.

(** C5 fails with [trace.it = 1]: the second [on.exit] (no [add = TRUE])
    replaces the one that resets [itrace], so the solver runs with
    [fdev = 0] and after [glmnet] returns [itrace] is still 1. *)
Lemma trace_zero_bound_counterexample :
  map (fun p => fdev (snd p)) (core_calls run_trace_zero_bound) = [0%Q] /\
  itrace cfg_example = 0%Z /\
  itrace (st_cfg (final_state run_trace_zero_bound)) = 1%Z /\
  fdev (st_cfg (final_state run_trace_zero_bound)) = fdev cfg_example.
Proof. vm_compute. repeat split. Qed.

(** ** Further properties of the code *)


Lemma insert_Z_perm a l : Permutation (insert_Z a l) (a :: l).
Proof.
  induction l as [|b l IH]; simpl; [reflexivity|].
  destruct (a <=? b)%Z; [reflexivity|].
  rewrite IH. apply perm_swap.
Qed.

Lemma insert_Z_sorted a l : Sorted Z.le l -> Sorted Z.le (insert_Z a l).
Proof.
  induction 1 as [|b l Hs IH Hhd]; simpl; [repeat constructor|].
  destruct (a <=? b)%Z eqn:E.
  - constructor; [constructor; auto|]. constructor. apply Z.leb_le. exact E.
  - apply Z.leb_gt in E. constructor; [exact IH|].
    destruct l as [|c l]; simpl; [constructor; lia|].
    destruct (a <=? c)%Z; constructor; [lia|]. inversion Hhd; assumption.
Qed.

Lemma fold_insert_Z l :
  Sorted Z.le (fold_right insert_Z [] l) /\ Permutation (fold_right insert_Z [] l) l.
Proof.
  induction l as [|a l [IH1 IH2]]; simpl; [split; constructor|].
  split; [apply insert_Z_sorted; exact IH1|].
  rewrite insert_Z_perm. constructor. exact IH2.
Qed.

Lemma dedup_Z_in l z : In z (dedup_Z l) <-> In z l.
Proof.
  induction l as [|a l IH]; simpl; [tauto|].
  destruct l as [|b l]; [simpl; tauto|].
  destruct (a =? b)%Z eqn:E.
  - apply Z.eqb_eq in E. subst. rewrite IH. simpl. tauto.
  - simpl in IH |- *. rewrite IH. tauto.
Qed.

Lemma dedup_Z_sorted l : Sorted Z.le l -> StronglySorted Z.lt (dedup_Z l).
Proof.
  induction l as [|a l IH]; intros Hs; [constructor|].
  destruct l as [|b l]; [repeat constructor|].
  pose proof (Sorted_StronglySorted Z.le_trans Hs) as Hss.
  inversion Hss as [|? ? Hss' Hall]; subst.
  inversion Hs as [|? ? Hs' _]; subst.
  simpl. destruct (a =? b)%Z eqn:E.
  - apply IH. exact Hs'.
  - apply Z.eqb_neq in E. constructor; [apply IH; exact Hs'|].
    apply Forall_forall. intros z Hz. apply (dedup_Z_in (b :: l)) in Hz.
    inversion Hall as [|? ? Hab Hall']; subst.
    destruct Hz as [<- | Hz]; [lia|].
    inversion Hss' as [|? ? _ Hbl]; subst.
    rewrite Forall_forall in Hbl. specialize (Hbl z Hz). lia.
Qed.

Lemma sort_unique_Z_in l z : In z (sort_unique_Z l) <-> In z l.
Proof.
  unfold sort_unique_Z. destruct (fold_insert_Z l) as [_ Hp].
  rewrite dedup_Z_in. split; apply Permutation_in; [|symmetry]; exact Hp.
Qed.

(** X1.  Lines 423-424: [sort(unique(exclude))] is strictly increasing and has
    the same elements as [exclude]. *)
Theorem sort_unique_exclusions l :
  StronglySorted Z.lt (sort_unique_Z l) /\ (forall z, In z (sort_unique_Z l) <-> In z l).
Proof.
  unfold sort_unique_Z. destruct (fold_insert_Z l) as [Hs Hp]. split.
  - apply dedup_Z_sorted. exact Hs.
  - intros z. apply sort_unique_Z_in.
Qed.

Lemma match_index_pos nvars e : (0 < match_index nvars e)%Z -> match_index nvars e = e /\ (1 <= e <= Z.of_nat nvars)%Z.
Proof.
  unfold match_index. destruct ((1 <=? e)%Z && (e <=? Z.of_nat nvars)%Z) eqn:E; [|lia].
  apply andb_true_iff in E. destruct E as [E1 E2]. apply Z.leb_le in E1. apply Z.leb_le in E2.
  intros _. split; [reflexivity | lia].
Qed.

(** The exclusion step of [glmnet_stage2] (lines 421-433). *)
Lemma stage2_exclusion inp fam s1 s fc s' :
  glmnet_stage2 inp fam s1 s = ROk fc s' ->
  exists anyinf s2 s3 jd pf,
    r_any (map (fun d => dbl_eq d PosInf) (m_vals (s1_pf s1))) = lgl_of_bool anyinf /\
    (let exclude0 := match in_exclude inp with Some e => e | None => [] end in
     let exclude := if anyinf
                    then sort_unique_Z (exclude0 ++ inf_positions (s1_nvars s1) (s1_pf s1))
                    else exclude0 in
     match exclude with
     | [] => ret ([0%Z], s1_pf s1)
     | _ =>
         let jd := map (match_index (s1_nvars s1)) exclude in
         if negb (forallb (fun j => (0 <? j)%Z) jd)
         then stop "Some excluded variables out of range"
         else ret (Z.of_nat (List.length jd) :: jd, set_ones jd (s1_pf s1))
     end) s2 = ROk (jd, pf) s3 /\
    fc_jd fc = jd /\ fc_vp fc = firstn (m_nrow pf) (m_vals pf) /\ fc_nvars fc = s1_nvars s1.
Proof.
  intros H. unfold glmnet_stage2 in H. peel H.
  apply r_if_ok in Hm0. destruct Hm0 as [_ Hc].
  exists v0, s2, s3, l, n. simpl. auto.
Qed.

Lemma exclusion_jd nvars exclude pf0 s jd pf s' :
  (match exclude with
   | [] => ret ([0%Z], pf0)
   | _ =>
       let jd := map (match_index nvars) exclude in
       if negb (forallb (fun j => (0 <? j)%Z) jd)
       then stop "Some excluded variables out of range"
       else ret (Z.of_nat (List.length jd) :: jd, set_ones jd pf0)
   end) s = ROk (jd, pf) s' ->
  (exclude = [] /\ jd = [0%Z] /\ pf = pf0) \/
  (exists l, exclude <> [] /\ l = exclude /\ jd = Z.of_nat (List.length l) :: l /\
     Forall (fun j => 1 <= j <= Z.of_nat nvars)%Z l /\ pf = set_ones l pf0).
Proof.
  intros H. destruct exclude as [|e ex].
  - left. unfold ret in H. injection H; intros; subst. auto.
  - right. cbv zeta in H. destruct (negb _) eqn:E in H; [discriminate|].
    apply negb_false_iff in E. rewrite forallb_forall in E.
    assert (Hm : forall j, In j (e :: ex) -> match_index nvars j = j /\ (1 <= j <= Z.of_nat nvars)%Z).
    { intros j Hj. apply match_index_pos. apply Z.ltb_lt. apply E. apply in_map. exact Hj. }
    assert (Hid : map (match_index nvars) (e :: ex) = e :: ex).
    { rewrite <- (map_id (e :: ex)) at 2. apply map_ext_in. intros j Hj. apply Hm. exact Hj. }
    rewrite Hid in H. unfold ret in H. injection H; intros; subst.
    exists (e :: ex). split; [discriminate|]. split; [reflexivity|]. split; [reflexivity|].
    split; [|reflexivity]. apply Forall_forall. intros j Hj. apply Hm. exact Hj.
Qed.

(** X2.  Lines 419-431: the [jd] vector [glmnet] hands to the family fit
    is [c(k, j1, ..., jk)]: a count followed by [k] column indices in
    [1..nvars]; every variable the caller excluded is among them, and [0]
    alone means that no variable is excluded. *)
Theorem stage2_jd_excludes inp fam s1 s fc s' :
  glmnet_stage2 inp fam s1 s = ROk fc s' ->
  exists l, fc_jd fc = Z.of_nat (List.length l) :: l /\
    Forall (fun j => 1 <= j <= Z.of_nat (fc_nvars fc))%Z l /\
    (forall ex e, in_exclude inp = Some ex -> In e ex -> In e l).
Proof.
  intros H. destruct (stage2_exclusion _ _ _ _ _ _ H)
    as (anyinf & s2 & s3 & jd & pf & Hinf & Hx & Hjd & Hvp & Hnv).
  rewrite Hnv. cbv zeta in Hx.
  apply exclusion_jd in Hx.
  destruct Hx as [(Hex & -> & ->) | (l & Hne & Hl & -> & Hall & ->)].
  - exists []. rewrite Hjd. split; [reflexivity|]. split; [constructor|].
    intros ex e Hex' He. exfalso. rewrite Hex' in Hex.
    destruct anyinf.
    + assert (Hin : In e (sort_unique_Z (ex ++ inf_positions (s1_nvars s1) (s1_pf s1)))).
      { apply sort_unique_Z_in. apply in_or_app. left. exact He. }
      rewrite Hex in Hin. contradiction.
    + subst ex. contradiction.
  - exists l. rewrite Hjd. split; [reflexivity|]. split; [exact Hall|].
    intros ex e Hex' He. subst l. rewrite Hex'. destruct anyinf.
    + apply sort_unique_Z_in. apply in_or_app. left. exact He.
    + exact He.
Qed.

Lemma stage1_pf_nrow inp s s1 s' :
  glmnet_stage1 inp s = ROk s1 s' -> m_nrow (s1_pf s1) = s1_nvars s1.
Proof.
  intros H. unfold glmnet_stage1 in H. peel H.
  apply negb_false_iff in E2. unfold all_eq_recycled, recycle in E2.
  simpl in E2. apply andb_true_iff in E2. destruct E2 as [E2 _].
  apply Nat.eqb_eq in E2. rewrite Nat.sub_diag in E2. exact E2.
Qed.

Lemma r_any_true_in (f : dbl -> lgl) l x :
  In x l -> f x = LTrue -> r_any (map f l) = LTrue.
Proof.
  intros Hx Hf. unfold r_any.
  replace (existsb _ (map f l)) with true; [reflexivity|]. symmetry.
  apply existsb_exists. exists (f x). split; [apply in_map; exact Hx | rewrite Hf; reflexivity].
Qed.

Lemma nth_map_combine_seq (f : nat * dbl -> dbl) (vals : list dbl) j :
  j < List.length vals ->
  nth j (map f (combine (seq 1 (List.length vals)) vals)) NA = f (S j, nth j vals NA).
Proof.
  intros Hj.
  rewrite nth_indep with (d' := f (0, NA)).
  2: { rewrite length_map, length_combine, length_seq, Nat.min_id. exact Hj. }
  rewrite map_nth. rewrite combine_nth by (rewrite length_seq; reflexivity).
  rewrite seq_nth by exact Hj. reflexivity.
Qed.

Lemma set_ones_nth jd pf j :
  j < List.length (m_vals pf) ->
  nth j (m_vals (set_ones jd pf)) NA =
  if existsb (Z.eqb (Z.of_nat (S j))) jd then Num 1%Q else nth j (m_vals pf) NA.
Proof.
  intros Hj. unfold set_ones. simpl.
  rewrite (nth_map_combine_seq (fun iv => if existsb (Z.eqb (Z.of_nat (fst iv))) jd then Num 1%Q else snd iv)).
  - reflexivity.
  - exact Hj.
Qed.

Lemma inf_positions_in nvars pf j :
  j < nvars -> nth j (m_vals pf) NA = PosInf -> In (Z.of_nat (S j)) (inf_positions nvars pf).
Proof.
  intros Hj Hv. unfold inf_positions. apply in_map. apply filter_In. split.
  - apply in_seq. split; [lia|].
    destruct (Nat.lt_ge_cases j (List.length (m_vals pf))) as [Hl|Hl]; [lia|].
    rewrite nth_overflow in Hv by exact Hl. discriminate.
  - replace (S j - 1) with j by lia. rewrite Hv.
    apply andb_true_iff. split; [apply Nat.leb_le; lia | reflexivity].
Qed.

(** X3.  Lines 422-433: a variable whose penalty factor is [Inf] is
    excluded (its index is in [jd]) and its penalty factor is set to 1, so
    no infinite penalty factor reaches the family fit. *)
Theorem inf_penalty_factor_excluded inp s0 s1 s fam fc s' :
  glmnet_stage1 inp s0 = ROk s1 s ->
  glmnet_stage2 inp fam s1 s = ROk fc s' ->
  (forall j, j < s1_nvars s1 -> nth j (m_vals (s1_pf s1)) NA = PosInf ->
     In (Z.of_nat (S j)) (tl (fc_jd fc)) /\ nth j (fc_vp fc) NA = Num 1%Q) /\
  ~ In PosInf (fc_vp fc).
Proof.
  intros H1 H2. pose proof (stage1_pf_nrow _ _ _ _ H1) as Hrow.
  destruct (stage2_exclusion _ _ _ _ _ _ H2)
    as (anyinf & s2 & s3 & jd & pf & Hinf & Hx & Hjd & Hvp & _).
  cbv zeta in Hx. apply exclusion_jd in Hx.
  set (vals := m_vals (s1_pf s1)) in *.
  assert (Hany : forall j, j < s1_nvars s1 -> nth j vals NA = PosInf ->
            anyinf = true /\
            In (Z.of_nat (S j)) (sort_unique_Z (match in_exclude inp with Some e => e | None => [] end
                                   ++ inf_positions (s1_nvars s1) (s1_pf s1)))).
  { intros j Hj Hv.
    assert (Hl : j < List.length vals).
    { destruct (Nat.lt_ge_cases j (List.length vals)) as [Hl|Hl]; [exact Hl|].
      rewrite nth_overflow in Hv by exact Hl. discriminate. }
    assert (anyinf = true).
    { rewrite (r_any_true_in (fun d => dbl_eq d PosInf) vals PosInf) in Hinf.
      - destruct anyinf; [reflexivity | discriminate].
      - rewrite <- Hv. apply nth_In. exact Hl.
      - reflexivity. }
    split; [assumption|]. apply sort_unique_Z_in. apply in_or_app. right.
    apply inf_positions_in; assumption. }
  assert (Hpt : forall j, j < s1_nvars s1 -> nth j vals NA = PosInf ->
            In (Z.of_nat (S j)) (tl (fc_jd fc)) /\ nth j (fc_vp fc) NA = Num 1%Q).
  { intros j Hj Hv. destruct (Hany j Hj Hv) as [-> Hin].
    assert (Hl : j < List.length vals).
    { destruct (Nat.lt_ge_cases j (List.length vals)) as [Hl|Hl]; [exact Hl|].
      rewrite nth_overflow in Hv by exact Hl. discriminate. }
    destruct Hx as [(Hex & _ & _) | (l & _ & Hl' & Hjd' & _ & Hpf)].
    - rewrite Hex in Hin. contradiction.
    - subst l. rewrite Hjd, Hjd'. simpl. split; [exact Hin|].
      rewrite Hvp, Hpf, nth_firstn. change (m_nrow (set_ones ?a ?b)) with (m_nrow b). rewrite Hrow.
      replace (j <? s1_nvars s1) with true by (symmetry; apply Nat.ltb_lt; exact Hj).
      rewrite set_ones_nth by exact Hl.
      replace (existsb _ _) with true; [reflexivity|]. symmetry.
      apply existsb_exists. exists (Z.of_nat (S j)). split; [exact Hin | apply Z.eqb_refl]. }
  split; [exact Hpt|].
  intros Hin. rewrite Hvp in Hin.
  apply In_nth with (d := NA) in Hin. destruct Hin as (j & Hj & Hv).
  rewrite length_firstn in Hj. rewrite nth_firstn in Hv.
  replace (j <? m_nrow pf) with true in Hv by (symmetry; apply Nat.ltb_lt; lia).
  destruct Hx as [(Hex & _ & ->) | (l & _ & Hl' & Hjd' & _ & Hpf)].
  - rewrite Hrow in Hj. destruct (Hany j ltac:(lia) Hv) as [-> Hin].
    rewrite Hex in Hin. contradiction.
  - subst pf. change (m_nrow (set_ones ?a ?b)) with (m_nrow b) in Hj. rewrite Hrow in Hj.
    assert (Hl : j < List.length vals).
    { unfold set_ones in Hj. simpl in Hj. rewrite length_map, length_combine, length_seq, Nat.min_id in Hj.
      unfold vals. lia. }
    rewrite set_ones_nth in Hv by exact Hl.
    destruct (existsb _ l) eqn:Ee in Hv; [discriminate|].
    destruct (Hpt j ltac:(lia) Hv) as [_ H1'].
    rewrite Hvp, nth_firstn in H1'. change (m_nrow (set_ones ?a ?b)) with (m_nrow b) in H1'.
    replace (j <? m_nrow (s1_pf s1)) with true in H1' by (symmetry; apply Nat.ltb_lt; lia).
    rewrite set_ones_nth, Ee, Hv in H1' by exact Hl. discriminate.
Qed.

(** ** Classes of a vector response *)

Lemma dbl_same_refl d : d <> NA -> dbl_same d d = true.
Proof. destruct d; simpl; try reflexivity. intros _. apply Qeq_bool_refl. congruence. Qed.

Lemma dbl_same_sym a b : dbl_same a b = dbl_same b a.
Proof.
  destruct a, b; simpl; try reflexivity.
  destruct (Qeq_bool (sig15 q) (sig15 q0)) eqn:E1, (Qeq_bool (sig15 q0) (sig15 q)) eqn:E2; try reflexivity.
  - apply Qeq_bool_iff in E1. apply Qeq_bool_neq in E2. exfalso. apply E2. symmetry. exact E1.
  - apply Qeq_bool_iff in E2. apply Qeq_bool_neq in E1. exfalso. apply E1. symmetry. exact E2.
Qed.

Lemma dbl_same_trans a b c : dbl_same a b = true -> dbl_same b c = true -> dbl_same a c = true.
Proof.
  destruct a, b, c; simpl; try discriminate; try reflexivity.
  intros H1 H2. apply Qeq_bool_iff in H1. apply Qeq_bool_iff in H2. apply Qeq_bool_iff.
  rewrite H1. exact H2.
Qed.

Lemma dbl_same_not_na a b : dbl_same a b = true -> a <> NA /\ b <> NA.
Proof. destruct a, b; simpl; try discriminate; intros _; split; discriminate. Qed.

Lemma dbl_same_ext a b : dbl_same a b = true -> forall c, dbl_same a c = dbl_same b c.
Proof.
  intros H c. destruct (dbl_same b c) eqn:E.
  - apply (dbl_same_trans _ _ _ H E).
  - destruct (dbl_same a c) eqn:E'; [|reflexivity].
    rewrite dbl_same_sym in H. rewrite (dbl_same_trans _ _ _ H E') in E. discriminate.
Qed.

Lemma dedup_sorted_covers l x :
  (forall d, In d l -> d <> NA) -> In x l ->
  exists y, In y (dedup_sorted l) /\ dbl_same y x = true.
Proof.
  revert x. induction l as [|a l IH]; intros x Hna Hx; [destruct Hx|].
  destruct l as [|b l].
  - destruct Hx as [<- | []]. exists a. split; [left; reflexivity|].
    apply dbl_same_refl. apply Hna. left. reflexivity.
  - assert (Hna' : forall d, In d (b :: l) -> d <> NA) by (intros d Hd; apply Hna; right; exact Hd).
    simpl. destruct (dbl_same a b) eqn:E.
    + destruct Hx as [<- | Hx].
      * destruct (IH b Hna' (or_introl eq_refl)) as (y & Hy & Hs).
        exists y. split; [exact Hy|]. rewrite dbl_same_sym in E. exact (dbl_same_trans _ _ _ Hs E).
      * exact (IH x Hna' Hx).
    + destruct Hx as [<- | Hx].
      * exists a. split; [left; reflexivity|]. apply dbl_same_refl. apply Hna. left. reflexivity.
      * destruct (IH x Hna' Hx) as (y & Hy & Hs). exists y. split; [right; exact Hy | exact Hs].
Qed.

Lemma factor_levels_covers v x :
  In x v -> x <> NA -> exists l, In l (factor_levels v) /\ dbl_same l x = true.
Proof.
  intros Hx Hna. unfold factor_levels.
  destruct (is_na x) eqn:Ex.
  - destruct x; try discriminate; [|contradiction].
    exists NaN. split; [|reflexivity]. apply in_or_app. right.
    replace (existsb _ v) with true; [left; reflexivity|]. symmetry.
    apply existsb_exists. exists NaN. auto.
  - assert (Hin : In x (r_sort v)).
    { unfold r_sort. apply (Permutation_in _ (Permutation_sym (isort_perm _))).
      apply filter_In. rewrite Ex. auto. }
    destruct (dedup_sorted_covers (r_sort v) x) as (l & Hl & Hs).
    + intros d Hd. unfold r_sort in Hd. apply (Permutation_in _ (isort_perm _)) in Hd.
      apply filter_In in Hd. destruct Hd as [_ Hd]. destruct d; discriminate.
    + exact Hin.
    + exists l. split; [apply in_or_app; left; exact Hl | exact Hs].
Qed.

Lemma fold_min_le (l : list nat) a : fold_left Nat.min l a <= a /\ forall x, In x l -> fold_left Nat.min l a <= x.
Proof.
  revert a. induction l as [|b l IH]; intros a; simpl; [split; [lia | tauto]|].
  destruct (IH (Nat.min a b)) as [H1 H2]. split; [lia|].
  intros x [<- | Hx]; [lia | apply H2; exact Hx].
Qed.

Lemma list_min_le l m : list_min l = Some m -> forall x, In x l -> m <= x.
Proof.
  destruct l as [|a l]; simpl; [discriminate|]. intros H. injection H as <-.
  destruct (fold_min_le l a) as [H1 H2]. intros x [<- | Hx]; [exact H1 | apply H2; exact Hx].
Qed.

Lemma shape_response_vec v s r s' :
  shape_response (YVec v) s = ROk r s' ->
  let lv := factor_levels v in
  r = (indicator (List.length lv) lv v, [List.length lv]) /\
  exists m, list_min (level_counts lv v) = Some m /\ 2 <= m.
Proof.
  intros H. unfold shape_response in H. simpl in H.
  destruct (list_min _) as [m|] eqn:Em; [|discriminate].
  destruct (m <=? 1) eqn:E1; [discriminate|]. apply Nat.leb_gt in E1.
  peel H. split; [reflexivity|]. exists m. split; [exact Em | lia].
Qed.

(** X4.  Lines 359-366: a response without dimensions is read as classes,
    and [glmnet] goes on only when every value of it (other than [NA])
    occurs at least twice, counting with it the values that agree with it
    to 15 significant digits ([as.factor] compares [as.character] of the
    values), whatever the family: a response with a value that occurs once,
    as a continuous Gaussian response usually has, is refused. *)
Theorem vector_response_each_value_twice inp s s1 s' :
  ydim (in_y inp) = None ->
  glmnet_stage1 inp s = ROk s1 s' ->
  forall d, In d (yvals (in_y inp)) -> d <> NA ->
  2 <= List.length (filter (dbl_same d) (yvals (in_y inp))).
Proof.
  intros Hd H d Hin Hna.
  unfold glmnet_stage1 in H. peel H.
  destruct (in_y inp) as [v | r c v] eqn:Ey; [|discriminate].
  apply shape_response_vec in Hm. destruct Hm as [_ (m & Hm & Hm2)].
  simpl in Hin |- *.
  destruct (factor_levels_covers v d Hin Hna) as (lv0 & Hl & Hs).
  pose proof (list_min_le _ _ Hm (List.length (filter (dbl_same lv0) v))) as Hle.
  rewrite (filter_ext (dbl_same lv0) (dbl_same d)) in Hle by (apply dbl_same_ext; exact Hs).
  apply Nat.le_trans with m; [exact Hm2|]. apply Hle.
  unfold level_counts. apply in_map_iff. exists lv0. split; [|exact Hl].
  apply (f_equal (@List.length dbl)). apply filter_ext. apply dbl_same_ext. exact Hs.
Qed.

Lemma level_pos_bound lv d : level_pos lv d <= List.length lv.
Proof.
  induction lv as [|l lv IH]; simpl; [lia|].
  destruct (dbl_same l d); [lia|]. destruct (level_pos lv d); lia.
Qed.

Lemma level_pos_found lv d :
  (exists l, In l lv /\ dbl_same l d = true) -> 1 <= level_pos lv d.
Proof.
  intros (l & Hl & Hs). induction lv as [|a lv IH]; [destruct Hl|].
  simpl. destruct (dbl_same a d) eqn:E; [lia|].
  destruct Hl as [<- | Hl]; [congruence|].
  specialize (IH Hl). destruct (level_pos lv d); lia.
Qed.

Lemma level_pos_same lv d d' : dbl_same d d' = true -> level_pos lv d = level_pos lv d'.
Proof.
  intros H. induction lv as [|l lv IH]; simpl; [reflexivity|].
  assert (Hl : dbl_same l d = dbl_same l d').
  { rewrite (dbl_same_sym l d), (dbl_same_sym l d'). apply dbl_same_ext. exact H. }
  rewrite Hl, IH. reflexivity.
Qed.

Lemma level_pos_nth lv d : 1 <= level_pos lv d -> dbl_same (nth (level_pos lv d - 1) lv NA) d = true.
Proof.
  induction lv as [|l lv IH]; simpl; [lia|].
  destruct (dbl_same l d) eqn:E; [intros _; exact E|].
  destruct (level_pos lv d) as [|k] eqn:Ek; [lia|]. intros _.
  replace (S (S k) - 1) with (S k) by lia. simpl.
  replace k with (S k - 1) by lia. apply IH. lia.
Qed.

Lemma level_pos_na lv : level_pos lv NA = 0.
Proof.
  induction lv as [|l lv IH]; simpl; [reflexivity|].
  replace (dbl_same l NA) with false by (destruct l; reflexivity). rewrite IH. reflexivity.
Qed.

Lemma nth_flat_map_blocks {A : Type} (g : nat -> A -> dbl) (v : list A) (da : A) a k m i :
  m < k -> i < List.length v ->
  nth (m * List.length v + i) (flat_map (fun j => map (g j) v) (seq a k)) NA = g (a + m) (nth i v da).
Proof.
  revert a m. induction k as [|k IH]; intros a m Hm Hi; [lia|].
  simpl. destruct m as [|m].
  - simpl. rewrite app_nth1 by (rewrite length_map; exact Hi).
    rewrite nth_indep with (d' := g a da) by (rewrite length_map; exact Hi).
    rewrite map_nth. f_equal. lia.
  - rewrite app_nth2 by (rewrite length_map; nia).
    rewrite length_map. replace (S m * List.length v + i - List.length v) with (m * List.length v + i) by nia.
    rewrite IH by lia. f_equal. lia.
Qed.

Lemma length_flat_map_blocks {A : Type} (g : nat -> A -> dbl) (v : list A) a k :
  List.length (flat_map (fun j => map (g j) v) (seq a k)) = k * List.length v.
Proof.
  revert a. induction k as [|k IH]; intros a; simpl; [reflexivity|].
  rewrite length_app, length_map, IH. reflexivity.
Qed.

(** X5.  Lines 362-369: a response without dimensions becomes the
    indicator matrix of its classes, [nobs] rows and one column per class
    (a plain vector when there is one class): each row other than an [NA]
    row holds a single 1, in the column of its class, and 0 elsewhere; two
    observations share that column exactly when their values agree to 15
    significant digits; an [NA] observation gives a row of [NA]. *)
Theorem response_indicator_one_hot v s r s' :
  shape_response (YVec v) s = ROk r s' ->
  exists k (cls : dbl -> nat),
    snd r = [k] /\
    ydim (fst r) = (if k =? 1 then None else Some [List.length v; k]) /\
    List.length (yvals (fst r)) = k * List.length v /\
    (forall d, In d v -> d <> NA -> 1 <= cls d <= k) /\
    (forall d d', In d v -> d <> NA -> In d' v -> d' <> NA ->
       (cls d = cls d' <-> dbl_same d d' = true)) /\
    (forall i j, i < List.length v -> 1 <= j <= k ->
       nth ((j - 1) * List.length v + i) (yvals (fst r)) NA =
       match nth i v NA with
       | NA => NA
       | d => if j =? cls d then Num 1%Q else Num 0%Q
       end).
Proof.
  intros H. apply shape_response_vec in H. destruct H as [-> _].
  set (lv := factor_levels v).
  assert (Hf : forall d, In d v -> d <> NA -> 1 <= level_pos lv d <= List.length lv).
  { intros d Hd Hna. split; [apply level_pos_found, factor_levels_covers; assumption|].
    apply level_pos_bound. }
  exists (List.length lv), (level_pos lv). simpl.
  unfold indicator. cbv zeta.
  set (vals := flat_map _ (seq 1 (List.length lv))).
  split; [reflexivity|]. split; [destruct (List.length lv =? 1); reflexivity|].
  split; [destruct (List.length lv =? 1); apply length_flat_map_blocks|].
  split; [exact Hf|]. split.
  - intros d d' Hd Hna Hd' Hna'. split.
    + intros He. pose proof (level_pos_nth lv d) as H1. pose proof (level_pos_nth lv d') as H2.
      rewrite He in H1. pose proof (Hf d Hd Hna) as B1. pose proof (Hf d' Hd' Hna') as B2.
      assert (S1 : dbl_same (nth (level_pos lv d' - 1) lv NA) d = true) by (apply H1; lia).
      assert (S2 : dbl_same (nth (level_pos lv d' - 1) lv NA) d' = true) by (apply H2; lia).
      rewrite dbl_same_sym in S1. eapply dbl_same_trans; eassumption.
    + apply level_pos_same.
  - intros i j Hi Hj.
    assert (Hv : nth ((j - 1) * List.length v + i) (yvals (if List.length lv =? 1 then YVec vals
                    else YMat (List.length v) (List.length lv) vals)) NA =
                 nth ((j - 1) * List.length v + i) vals NA)
      by (destruct (List.length lv =? 1); reflexivity).
    rewrite Hv. unfold vals.
    rewrite (nth_flat_map_blocks _ v NA 1 (List.length lv) (j - 1) i) by lia.
    replace (1 + (j - 1)) with j by lia.
    destruct (nth i v NA) as [q | | | |] eqn:Ed;
      try (rewrite level_pos_na; reflexivity);
      (assert (Hin : 1 <= level_pos lv (nth i v NA) <= List.length lv)
         by (apply Hf; [apply nth_In; exact Hi | rewrite Ed; discriminate]);
       rewrite Ed in Hin;
       destruct (level_pos lv _) as [|kk]; [lia|]; rewrite Nat.eqb_sym; reflexivity).
Qed.

(** X6.  Lines 359 and 379-381: with a response that has dimensions
    [r x c], [nc] is [dim(y)], the default [penalty.factor] is
    [matrix(1, nvars, r)], and comparing its dimensions with
    [c(nvars, r, c)] (recycled) fails unless [c = nvars]: such a call
    without an explicit [penalty.factor] stops whenever the response has a
    number of columns other than [nvars]. *)
Theorem matrix_response_default_penalty_stops inp r c v s :
  in_y inp = YMat r c v -> in_penalty_factor inp = None -> c <> x_ncol (in_x inp) ->
  forall s1 s', glmnet_stage1 inp s <> ROk s1 s'.
Proof.
  intros Hy Hpf Hc s1 s' H. unfold glmnet_stage1 in H. peel H.
  rewrite Hy in Hm. unfold shape_response in Hm. simpl in Hm.
  unfold ret in Hm. injection Hm; intros; subst.
  rewrite Hpf in E2. unfold all_eq_recycled, recycle in E2. simpl in E2.
  rewrite Nat.eqb_refl in E2. simpl in E2.
  replace (x_ncol (in_x inp) =? c) with false in E2 by (symmetry; apply Nat.eqb_neq; congruence).
  rewrite Nat.eqb_refl in E2. discriminate.
Qed.

Lemma r_any_false_iff (f : dbl -> lgl) l :
  r_any (map f l) = LFalse <-> Forall (fun d => f d = LFalse) l.
Proof.
  split.
  - intros H. apply Forall_forall. intros d Hd. apply (r_any_false (map f l) H). apply in_map. exact Hd.
  - intros H. unfold r_any.
    replace (existsb _ (map f l)) with false.
    2: { symmetry. apply not_true_iff_false. intros He. apply existsb_exists in He.
         destruct He as (x & Hx & Hv). apply in_map_iff in Hx. destruct Hx as (d & <- & Hd).
         rewrite Forall_forall in H. rewrite (H d Hd) in Hv. discriminate. }
    replace (existsb _ (map f l)) with false; [reflexivity|].
    symmetry. apply not_true_iff_false. intros He. apply existsb_exists in He.
    destruct He as (x & Hx & Hv). apply in_map_iff in Hx. destruct Hx as (d & <- & Hd).
    rewrite Forall_forall in H. rewrite (H d Hd) in Hv. discriminate.
Qed.

(** X7.  Line 543: [fishnet] gets past its response check exactly when
    every response value is comparable with 0 and not below it (no [NA],
    no [NaN], no negative value); otherwise it stops before calling the
    solver. *)
Theorem fishnet_response_check fc :
  (forall s, (exists r s', fishnet_pre fc s = ROk r s') <->
             Forall (fun d => dbl_lt d (Num 0%Q) = LFalse) (yvals (fc_y fc))) /\
  (forall core s, ~ Forall (fun d => dbl_lt d (Num 0%Q) = LFalse) (yvals (fc_y fc)) ->
     exists e s', fishnet core fc s = RErr e s' /\ st_log s' = st_log s).
Proof.
  assert (Hiff : forall s, (exists r s', fishnet_pre fc s = ROk r s') <->
             Forall (fun d => dbl_lt d (Num 0%Q) = LFalse) (yvals (fc_y fc))).
  { intros s. rewrite <- r_any_false_iff. unfold fishnet_pre. split.
    - intros (r & s' & H). peel H; apply r_if_ok in Hm; destruct Hm as [_ Hc]; exact Hc.
    - intros H. rewrite H. unfold bind, r_if, ret. simpl.
      destruct (match fc_offset fc with | Some o => _ | None => _ end). eexists _, _. reflexivity. }
  split; [exact Hiff|].
  intros core s Hn. unfold fishnet. unfold bind at 1.
  destruct (fishnet_pre fc s) as [r s1 | e s1] eqn:E.
  - exfalso. apply Hn. apply (Hiff s). eauto.
  - exists e, s1. split; [reflexivity|].
    assert (Hne : no_emit (fishnet_pre fc)) by (unfold fishnet_pre; solve_no_emit).
    specialize (Hne s). rewrite E in Hne. exact Hne.
Qed.

(** X8.  Lines 547-549 and 555-580: without an offset, [fishnet] passes the
    response unchanged and, as offset, [y*0]: an array of the shape of [y]
    that is 0 at every finite response and [NaN] at an infinite one; it
    reports [offset = FALSE]. *)
Theorem fishnet_default_offset fc s r s' :
  fc_offset fc = None -> fishnet_pre fc s = ROk r s' ->
  snd r = false /\ ca_y (fst r) = fc_y fc /\
  exists off, ca_offset (fst r) = Some off /\ ydim off = ydim (fc_y fc) /\
    Forall2 (fun d o => if is_finite d then dbl_eq o (Num 0%Q) = LTrue else o = NaN)
      (yvals (fc_y fc)) (yvals off).
Proof.
  intros Ho H. unfold fishnet_pre in H. peel H.
  apply r_if_ok in Hm. destruct Hm as [_ Hc].
  rewrite Ho in E0. injection E0; intros; subst. simpl.
  assert (Hall : Forall (fun d => dbl_lt d (Num 0%Q) = LFalse) (yvals (fc_y fc)))
    by (apply r_any_false_iff; exact Hc).
  split; [reflexivity|]. split; [reflexivity|].
  exists (y_map (fun d => dbl_mul d (Num 0%Q)) (fc_y fc)). split; [reflexivity|].
  assert (Hv : yvals (y_map (fun d => dbl_mul d (Num 0%Q)) (fc_y fc)) =
               map (fun d => dbl_mul d (Num 0%Q)) (yvals (fc_y fc)))
    by (destruct (fc_y fc); reflexivity).
  split; [destruct (fc_y fc); reflexivity|]. rewrite Hv.
  clear - Hall. induction (yvals (fc_y fc)) as [|d l IH]; simpl; constructor.
  - inversion Hall as [|? ? Hd _]; subst.
    destruct d as [q | | | |]; simpl in Hd |- *; try discriminate; [|reflexivity].
    unfold lgl_of_bool. replace (Qeq_bool (q * 0) 0) with true; [reflexivity|].
    symmetry. apply Qeq_bool_iff. ring.
  - apply IH. inversion Hall; assumption.
Qed.

(** ** Missing and infinite responses in [elnet] *)













Lemma y_minus_vals y off s y' s' :
  y_minus y off s = ROk y' s' -> yvals y' = recycle dbl_sub (yvals y) off NA NA.
Proof.
  unfold y_minus. destruct y as [v | r c v]; intros H; peel H; reflexivity.
Qed.




Lemma keeps_inv_ret {A : Type} P (a : A) : keeps_inv P (ret a).
Proof. intros s H. exact H. Qed.

Lemma keeps_inv_stop {A : Type} P msg : keeps_inv P (@stop A msg).
Proof. intros s H. exact H. Qed.

Lemma keeps_inv_bind {A B : Type} P (m : M A) (k : A -> M B) :
  keeps_inv P m -> (forall a, keeps_inv P (k a)) -> keeps_inv P (bind m k).
Proof.
  intros Hm Hk s H. pose proof (Hm s H) as H1. unfold bind.
  destruct (m s) as [a s1 | e s1]; [apply Hk|]; exact H1.
Qed.



Lemma keeps_inv_r_if P c : keeps_inv P (r_if c).
Proof. intros s H. destruct c; exact H. Qed.

Lemma keeps_inv_warning P msg : keeps_inv P (warning msg).
Proof. intros s H. exact H. Qed.

Lemma keeps_inv_get_cfg P : keeps_inv P get_cfg.
Proof. intros s H. exact H. Qed.

Lemma keeps_inv_emit P e : keeps_inv P (emit e).
Proof. intros s H. exact H. Qed.

Lemma keeps_inv_lift_ext P r : keeps_inv P (lift_ext r).
Proof. intros s H. destruct r; exact H. Qed.

Lemma keeps_inv_zero_bound c0 cl : keeps_inv (settings_inv c0) (zero_bound_fdev cl).
Proof.
  intros s H. unfold zero_bound_fdev, bind, r_if.
  destruct (r_any _); try exact H. unfold get_cfg, ret. cbv beta iota.
  destruct H as [(Hc & Ho) | [(Hf & Hi & Hc & Ho) | (Hf & Hc & Ho)]].
  - rewrite Hc. destruct (Qeq_bool (fdev c0) 0%Q) eqn:Hf; simpl.
    + left. split; assumption.
    + right; right. simpl. rewrite Hc. auto.
  - rewrite Hc. simpl. rewrite Hf. simpl. right; left. auto.
  - rewrite Hc. simpl. right; right. auto.
Qed.

Ltac solve_keeps_inv :=
  repeat match goal with
  | |- keeps_inv _ (bind _ _) => apply keeps_inv_bind; [| intros ?]
  | |- keeps_inv _ (ret _) => apply keeps_inv_ret
  | |- keeps_inv _ (stop _) => apply keeps_inv_stop
  | |- keeps_inv _ (r_if _) => apply keeps_inv_r_if
  | |- keeps_inv _ (warning _) => apply keeps_inv_warning
  | |- keeps_inv _ get_cfg => apply keeps_inv_get_cfg
  | |- keeps_inv _ (emit _) => apply keeps_inv_emit
  | |- keeps_inv _ (lift_ext _) => apply keeps_inv_lift_ext
  | |- keeps_inv _ (zero_bound_fdev _) => apply keeps_inv_zero_bound
  | |- keeps_inv _ (let _ := _ in _) => cbv zeta
  | |- keeps_inv _ (if ?b then _ else _) => destruct b
  | |- keeps_inv _ (match ?x with _ => _ end) => destruct x
  end.


















(** X11.  Lines 447-454, for each limit: with [nvars >= 1] a limit of
    length 1 is repeated [nvars] times, a limit of length at least [nvars]
    is cut to its first [nvars] entries, and any other length stops. *)
Theorem fit_length_rule what nvars lim s :
  1 <= nvars ->
  fit_length what nvars lim s =
    if List.length lim =? 1 then ROk (repeat (hd NA lim) nvars) s
    else if nvars <=? List.length lim then ROk (firstn nvars lim) s
    else RErr ("Require length 1 or nvars " ++ what)%string s.
Proof.
  intros Hn. unfold fit_length.
  destruct (List.length lim <? nvars) eqn:Hlt.
  - apply Nat.ltb_lt in Hlt.
    destruct (List.length lim =? 1) eqn:H1; [reflexivity|].
    destruct (nvars <=? List.length lim) eqn:Hle; [apply Nat.leb_le in Hle; lia|reflexivity].
  - apply Nat.ltb_ge in Hlt. unfold ret.
    rewrite r_index_seq_firstn by lia.
    destruct (List.length lim =? 1) eqn:H1.
    + apply Nat.eqb_eq in H1. assert (nvars = 1) as -> by lia.
      destruct lim as [|a [|b l]]; simpl in H1; try discriminate. reflexivity.
    + apply Nat.leb_le in Hlt. rewrite Hlt. reflexivity.
Qed.



Lemma elnet_pre_ok fc s ca nd io s' :
  elnet_pre fc s = ROk (ca, nd, io) s' ->
  ca_x ca = fc_x fc /\ ca_weights ca = fc_weights fc /\ ca_offset ca = None /\
  yvals (ca_y ca) = match fc_offset fc with
                    | None => yvals (fc_y fc)
                    | Some off => recycle dbl_sub (yvals (fc_y fc)) off NA NA
                    end /\
  io = match fc_offset fc with None => false | Some _ => true end /\
  dbl_eq nd (Num 0%Q) = LFalse.
Proof.
  intros H. unfold elnet_pre in H.
  apply bind_ok_inv in H. destruct H as (ka & s0 & _ & H). cbv beta in H.
  apply bind_ok_inv in H. destruct H as ([y b] & s1 & Hy & H). cbv beta iota in H.
  apply bind_ok_inv in H. destruct H as (nd' & s2 & _ & H). cbv beta in H.
  apply bind_ok_inv in H. destruct H as (cst & s3 & Hc & H). cbv beta in H.
  apply r_if_ok in Hc. destruct Hc as [_ Hc].
  destruct cst; [discriminate H|]. unfold ret in H. injection H as <- <- <- <-. simpl.
  destruct (fc_offset fc) as [off|].
  - peel Hy. apply y_minus_vals in Hm. auto 7.
  - peel Hy. auto 7.
Qed.

Lemma finish_fit_ok co nd io s f s' :
  finish_fit co nd io s = ROk f s' ->
  st_log s' = st_log s /\ fl_offset f = io /\ fl_nulldev f = nd.
Proof.
  intros H. unfold finish_fit in H. peel H; peel Hm; peel_all; auto.
Qed.

(** X13.  [elnet] (unnamed file, lines 1-58): when it returns a fit it has
    called the solver exactly once, with the settings in force, the [x] and
    the weights it was given, [y - offset] as the response and no separate
    offset; the fit records whether an offset was given, and its [nulldev]
    is a value different from 0. *)
Theorem elnet_solver_call core fc s f s' :
  elnet core fc s = ROk f s' ->
  exists ca, st_log s' = st_log s ++ [EvCore ca (st_cfg s)] /\
    ca_x ca = fc_x fc /\ ca_weights ca = fc_weights fc /\ ca_offset ca = None /\
    yvals (ca_y ca) = match fc_offset fc with
                      | None => yvals (fc_y fc)
                      | Some off => recycle dbl_sub (yvals (fc_y fc)) off NA NA
                      end /\
    fl_offset f = match fc_offset fc with None => false | Some _ => true end /\
    dbl_eq (fl_nulldev f) (Num 0%Q) = LFalse.
Proof.
  intros H. unfold elnet in H.
  apply bind_ok_inv in H. destruct H as ([[ca nd] io] & s1 & Hp & H). cbv beta iota in H.
  pose proof (no_emit_elnet_pre fc s) as Hl. rewrite Hp in Hl. simpl in Hl.
  assert (Hcfg : st_cfg s1 = st_cfg s).
  { assert (K : keeps_inv (fun c (o : option (config -> config)) => c = st_cfg s) (elnet_pre fc)).
    { unfold elnet_pre, y_minus, null_deviance, weighted_mean. solve_keeps_inv. }
    specialize (K s eq_refl). rewrite Hp in K. exact K. }
  destruct (elnet_pre_ok fc s ca nd io s1 Hp) as (Hx & Hw & Ho & Hy & Hio & Hnd).
  unfold call_core, bind at 1, get_cfg at 1 in H.
  unfold bind at 1, emit at 1 in H. unfold ret at 1 in H. simpl in H.
  apply finish_fit_ok in H. destruct H as (Hl' & Hfo & Hfn).
  exists ca. rewrite Hl', <- Hl, Hcfg. simpl.
  rewrite Hfo, Hfn. auto 7.
Qed.


(** ** Witnesses of the further properties *)

Lemma stage2_jd_excludes_witness :
  exists l, fc_jd (ok_value fc_dummy stage2_excl_inf) = Z.of_nat (List.length l) :: l /\
    Forall (fun j => 1 <= j <= Z.of_nat (fc_nvars (ok_value fc_dummy stage2_excl_inf)))%Z l /\
    (forall ex e, in_exclude input_excl_inf = Some ex -> In e ex -> In e l).
Proof.
  apply (stage2_jd_excludes input_excl_inf "poisson" (ok_value stage1_dummy stage1_excl_inf)
           (final_state stage1_excl_inf)
           (ok_value fc_dummy stage2_excl_inf) (final_state stage2_excl_inf)).
  vm_compute. reflexivity.
Defined.

Lemma inf_penalty_factor_excluded_witness :
  (forall j, j < s1_nvars (ok_value stage1_dummy stage1_excl_inf) ->
     nth j (m_vals (s1_pf (ok_value stage1_dummy stage1_excl_inf))) NA = PosInf ->
     In (Z.of_nat (S j)) (tl (fc_jd (ok_value fc_dummy stage2_excl_inf))) /\
     nth j (fc_vp (ok_value fc_dummy stage2_excl_inf)) NA = Num 1%Q) /\
  ~ In PosInf (fc_vp (ok_value fc_dummy stage2_excl_inf)).
Proof.
  apply (inf_penalty_factor_excluded input_excl_inf st0 (ok_value stage1_dummy stage1_excl_inf)
           (final_state stage1_excl_inf) "poisson"
           (ok_value fc_dummy stage2_excl_inf) (final_state stage2_excl_inf));
    vm_compute; reflexivity.
Defined.

Lemma vector_response_each_value_twice_witness :
  2 <= List.length (filter (dbl_same (zd 1)) (yvals (in_y input_poisson))).
Proof.
  apply (vector_response_each_value_twice input_poisson st0
           (ok_value stage1_dummy stage1_poisson) (final_state stage1_poisson)).
  - reflexivity.
  - vm_compute. reflexivity.
  - simpl. left. reflexivity.
  - discriminate.
Defined.

Lemma response_indicator_one_hot_witness :
  (let r := ok_value (YVec [], []) shape_close in
   let v := y_close in
   exists k (cls : dbl -> nat),
    snd r = [k] /\
    ydim (fst r) = (if k =? 1 then None else Some [List.length v; k]) /\
    List.length (yvals (fst r)) = k * List.length v /\
    (forall d, In d v -> d <> NA -> 1 <= cls d <= k) /\
    (forall d d', In d v -> d <> NA -> In d' v -> d' <> NA ->
       (cls d = cls d' <-> dbl_same d d' = true)) /\
    (forall i j, i < List.length v -> 1 <= j <= k ->
       nth ((j - 1) * List.length v + i) (yvals (fst r)) NA =
       match nth i v NA with
       | NA => NA
       | d => if j =? cls d then Num 1%Q else Num 0%Q
       end)) /\
  dbl_03 <> dbl_01_02 /\ dbl_same dbl_03 dbl_01_02 = true /\
  snd (ok_value (YVec [], []) shape_close) = [2].
Proof.
  split; [|split; [|split]].
  - apply (response_indicator_one_hot y_close st0
             (ok_value (YVec [], []) shape_close) (final_state shape_close)).
    vm_compute. reflexivity.
  - unfold dbl_03, dbl_01_02. intros H. injection H as H. discriminate.
  - vm_compute. reflexivity.
  - vm_compute. reflexivity.
Defined.

Lemma matrix_response_default_penalty_stops_witness :
  glmnet_stage1 input_ymat st0 <> ROk (ok_value stage1_dummy stage1_ymat) (final_state stage1_ymat).
Proof.
  apply (matrix_response_default_penalty_stops input_ymat 4 3
           (map zd [1; 0; 0; 1; 0; 1; 0; 0; 0; 0; 1; 0]%Z) st0).
  - reflexivity.
  - reflexivity.
  - discriminate.
Defined.

Lemma fishnet_response_check_witness :
  exists e s', fishnet core_example fc_neg_y st0 = RErr e s' /\ st_log s' = st_log st0.
Proof.
  destruct (fishnet_response_check fc_neg_y) as [_ H]. apply H.
  intros Hf. simpl in Hf. inversion Hf as [| a l Ha Hl]. inversion Hl as [| b l' Hb _].
  vm_compute in Hb. discriminate Hb.
Defined.

Lemma fishnet_default_offset_witness :
  let r := ok_value (ca_dummy, false) fishnet_pre_poisson in
  snd r = false /\ ca_y (fst r) = fc_y fc_poisson /\
  exists off, ca_offset (fst r) = Some off /\ ydim off = ydim (fc_y fc_poisson) /\
    Forall2 (fun d o => if is_finite d then dbl_eq o (Num 0%Q) = LTrue else o = NaN)
      (yvals (fc_y fc_poisson)) (yvals off).
Proof.
  apply (fishnet_default_offset fc_poisson st0 (ok_value (ca_dummy, false) fishnet_pre_poisson)
           (final_state fishnet_pre_poisson)); vm_compute; reflexivity.
Defined.



Lemma fit_length_rule_witness :
  fit_length "lower.limits" 3 [Num 0%Q] st0 =
    if List.length [Num 0%Q] =? 1 then ROk (repeat (hd NA [Num 0%Q]) 3) st0
    else if 3 <=? List.length [Num 0%Q] then ROk (firstn 3 [Num 0%Q]) st0
    else RErr ("Require length 1 or nvars " ++ "lower.limits")%string st0.
Proof.
  apply (fit_length_rule "lower.limits" 3 [Num 0%Q] st0). lia.
Defined.


Lemma elnet_solver_call_witness :
  let f := ok_value fit_dummy elnet_sparse_gaussian in
  let s' := final_state elnet_sparse_gaussian in
  let fc := fc_sparse_gaussian in
  exists ca, st_log s' = st_log st0 ++ [EvCore ca (st_cfg st0)] /\
    ca_x ca = fc_x fc /\ ca_weights ca = fc_weights fc /\ ca_offset ca = None /\
    yvals (ca_y ca) = match fc_offset fc with
                      | None => yvals (fc_y fc)
                      | Some off => recycle dbl_sub (yvals (fc_y fc)) off NA NA
                      end /\
    fl_offset f = match fc_offset fc with None => false | Some _ => true end /\
    dbl_eq (fl_nulldev f) (Num 0%Q) = LFalse.
Proof.
  apply (elnet_solver_call core_example fc_sparse_gaussian st0
           (ok_value fit_dummy elnet_sparse_gaussian) (final_state elnet_sparse_gaussian)).
  vm_compute. reflexivity.
Defined.

